(** * Lighten-blend compositing: a shallow embedding of
    [lighten_blend_video.py] and [lighten_blend_image.py].

    Frames are modelled as numpy [uint8] arrays of shape [(h, w, 3)] in
    BGR order, flattened row-major into a list of pixels.  OpenCV's
    decoders, [cv2.resize] and the ffmpeg encoder are the environment:
    decoders are given as data (the successive results of [cap.read()] or
    [cv2.imread]), [cv2.resize] and the encoder's encode/decode round trip
    are section variables. *)

From Stdlib Require Import ZArith List String Ascii Bool Lia QArith Permutation.
Import ListNotations.
Open Scope Z_scope.

(** ** Frames and the per-channel maximum *)

(** A pixel [(B, G, R)]. *)
Definition pixel : Type := (Z * Z * Z)%type.

(** A decoded frame: [frame.shape[1]], [frame.shape[0]] and its pixels. *)
Record frame := mk_frame { fwidth : Z; fheight : Z; fpix : list pixel }.

Definition pmax (p q : pixel) : pixel :=
  let '(b1, g1, r1) := p in
  let '(b2, g2, r2) := q in
  (Z.max b1 b2, Z.max g1 g2, Z.max r1 r2).

Fixpoint zip_max (xs ys : list pixel) : list pixel :=
  match xs, ys with
  | x :: xs', y :: ys' => pmax x y :: zip_max xs' ys'
  | _, _ => []
  end.

(** [np.maximum(a, b, out=a)]: the result keeps [a]'s shape. *)
Definition np_maximum (a b : frame) : frame :=
  mk_frame (fwidth a) (fheight a) (zip_max (fpix a) (fpix b)).

(** [np.zeros((h, w, 3), dtype=np.uint8)]. *)
Definition black (w h : Z) : frame :=
  mk_frame w h (repeat (0, 0, 0) (Z.to_nat (w * h))).

(** [range(n)] *)
Definition zrange (n : Z) : list Z := map Z.of_nat (seq 0 (Z.to_nat n)).

(** A [uint8] pixel. *)
Definition pixel_okb (p : pixel) : bool :=
  let '(b, g, r) := p in
  (0 <=? b) && (b <=? 255) && (0 <=? g) && (g <=? 255) && (0 <=? r) && (r <=? 255).

(** A [w x h] BGR [uint8] frame. *)
Definition wf_frameb (w h : Z) (f : frame) : bool :=
  (fwidth f =? w) && (fheight f =? h)
  && Nat.eqb (List.length (fpix f)) (Z.to_nat (w * h)) && forallb pixel_okb (fpix f).

(** ** Video sources *)

(** An on-disk video as OpenCV sees it: whether [cv2.VideoCapture] opens
    it, the container metadata ([CAP_PROP_FPS], [CAP_PROP_FRAME_COUNT],
    [CAP_PROP_FRAME_WIDTH], [CAP_PROP_FRAME_HEIGHT]) and the successive
    results of [cap.read()] ([None] for [ret == False]). *)
Record source := mk_source {
  s_path : string;
  s_opened : bool;
  s_fps : Q;
  s_frame_count : Z;
  s_width : Z;
  s_height : Z;
  s_reads : list (option frame)
}.

(** [get_video_info]: [None] when the capture does not open. *)
Definition get_video_info (s : source) : option source :=
  if s_opened s then Some s else None.

(** The probing loop of [create_lighten_blend_video]: keep the sources
    whose info exists and whose [frame_count > 0]. *)
Definition probe_videos (paths : list source) : list source :=
  filter (fun s => match get_video_info s with
                   | Some info => 0 <? s_frame_count info
                   | None => false
                   end) paths.

(** [max(info['frame_count'] for info in video_infos)] *)
Definition max_frame_count (infos : list source) : Z :=
  match infos with
  | [] => 0
  | i :: rest => fold_left (fun m x => Z.max m (s_frame_count x)) rest (s_frame_count i)
  end.

(** [if base_fps <= 0 or base_fps > 120: base_fps = 30.0] *)
Definition normalize_fps (fps : Q) : Q :=
  if Qle_bool fps 0 || negb (Qle_bool fps 120) then Qmake 30 1 else fps.

Definition MAX_MEMORY_BYTES : Z := 1 * 1024 * 1024 * 1024.

(** [max_concurrent_videos = max(1, (MAX_MEMORY_BYTES - frame_size * 2) // frame_size)];
    [None] is the [ZeroDivisionError] raised for a zero frame size. *)
Definition max_concurrent_videos (w h : Z) : option Z :=
  let frame_size := w * h * 3 in
  if frame_size =? 0 then None
  else Some (Z.max 1 ((MAX_MEMORY_BYTES - frame_size * 2) / frame_size)).

(** Which pass [create_lighten_blend_video] runs, with its arguments. *)
Inductive vplan :=
| PStreaming (infos : list source) (w h : Z) (fps : Q) (mf : Z)
| PBatched (infos : list source) (w h : Z) (fps : Q) (mf : Z) (bs : Z).

Inductive vdecision :=
| DFail                (* returns False before any pass *)
| DRaise               (* raises [ZeroDivisionError] *)
| DRun (p : vplan).

(** Lines 94-153 of [create_lighten_blend_video] up to the dispatch. *)
Definition plan_video (paths : list source) : vdecision :=
  match paths with
  | [] => DFail
  | _ =>
    match probe_videos paths with
    | [] => DFail
    | (first :: _) as infos =>
      let mf := max_frame_count infos in
      let w := s_width first in
      let h := s_height first in
      let fps := normalize_fps (s_fps first) in
      match max_concurrent_videos w h with
      | None => DRaise
      | Some mc =>
        if Z.of_nat (List.length infos) >? mc
        then DRun (PBatched infos w h fps mf mc)
        else DRun (PStreaming infos w h fps mf)
      end
    end
  end.

(** The encoder as the environment provides it: the result of
    [ffmpeg_manager.get_ffmpeg_path()], whether [subprocess.Popen]
    succeeds, the encoder's exit status, and, for an encoder that exits
    with a non-zero status, how many frames it reads from its stdin
    before it stops reading ([None]: it reads to the end of its input).
    An encoder that exits with status 0 has read its input to the end. *)
Record encoder_env := mk_env {
  ffmpeg_path : option string;
  spawn_ok : bool;
  exit_code : Z;
  frames_read : option nat
}.

(** One call of [_create_lighten_blend_video_streaming]: its return
    value, the [(-s, -r)] configuration of the encoder when it was
    spawned, and the frames written to its stdin, each tagged with the
    [frame_idx] of the iteration that wrote it. *)
Record pass_result := mk_pass {
  pr_ok : bool;
  pr_config : option (Z * Z * Q);
  pr_writes : list (Z * frame)
}.

(** A whole request: return value, the streaming passes run in order, and
    the frames of the file left at [output_path] ([None]: not written). *)
Record vresult := mk_vresult {
  vr_ok : bool;
  vr_passes : list pass_result;
  vr_output : option (list frame)
}.

(** ** The streaming pass and the batch scheduler *)

Section Video.

(** [cv2.resize(frame, (w, h))] *)
Variable resize : Z -> Z -> frame -> frame.
(** What decoding an encoded frame gives back: the encoder's
    ([libx264], [yuv420p], [crf 18]) round trip. *)
Variable codec : frame -> frame.

(** [if frame.shape[1] != base_width or frame.shape[0] != base_height:
       frame = cv2.resize(frame, (base_width, base_height))] *)
Definition fit (w h : Z) (f : frame) : frame :=
  if negb (fwidth f =? w) || negb (fheight f =? h) then resize w h f else f.

(** An open [cv2.VideoCapture]: the source and its decode cursor. *)
Record cap := mk_cap { c_src : source; c_pos : nat }.

(** [ret, frame = cap.read()]: the next sequential read; the cursor
    advances whether or not the read succeeds. *)
Definition cap_read (c : cap) : option frame * cap :=
  (match nth_error (s_reads (c_src c)) (c_pos c) with
   | Some (Some f) => Some f
   | _ => None
   end, mk_cap (c_src c) (S (c_pos c))).

(** [composite_frame = frame] for the first frame, then
    [np.maximum(composite_frame, frame, out=composite_frame)]. *)
Definition merge_into (acc : option frame) (f : frame) : option frame :=
  match acc with
  | None => Some f
  | Some cf => Some (np_maximum cf f)
  end.

(** The inner [for cap_info in caps] loop for one [frame_idx]. *)
Fixpoint frame_step (w h idx : Z) (caps : list cap) (acc : option frame)
  : option frame * list cap :=
  match caps with
  | [] => (acc, [])
  | c :: rest =>
    if idx <? s_frame_count (c_src c) then
      let (r, c') := cap_read c in
      let acc' := match r with
                  | Some f => merge_into acc (fit w h f)
                  | None => acc
                  end in
      let (out, rest') := frame_step w h idx rest acc' in
      (out, c' :: rest')
    else
      let (out, rest') := frame_step w h idx rest acc in
      (out, c :: rest')
  end.

(** [for frame_idx in range(max_frames)], from [frame_idx = idx] on for
    [n] more iterations: each iteration writes one frame (black when no
    capture produced one). *)
Fixpoint frames_loop (w h idx : Z) (n : nat) (caps : list cap) : list (Z * frame) :=
  match n with
  | O => []
  | S n' =>
    let (cf, caps') := frame_step w h idx caps None in
    let out := match cf with
               | Some f => f
               | None => black w h
               end in
    (idx, out) :: frames_loop w h (idx + 1) n' caps'
  end.

(** Lines 170-181: reopen each source, keep those that open. *)
Definition open_caps (infos : list source) : list cap :=
  map (fun s => mk_cap s 0) (filter s_opened infos).

(** The frames [proc.stdin.write] delivers to the encoder.  Once the
    encoder has stopped reading (it exited, e.g. because libx264 rejects
    an odd width or height under [yuv420p], or the output path cannot
    be written), the next write raises and the frame loop ends in
    [except Exception: return False]. *)
Definition delivered (env : encoder_env) (frames : list (Z * frame)) : list (Z * frame) :=
  if exit_code env =? 0 then frames
  else match frames_read env with
       | Some k => firstn k frames
       | None => frames
       end.

(** [_create_lighten_blend_video_streaming] (no exception is raised by
    OpenCV or numpy while frames are processed).  The result is [False]
    whenever the encoder exits with a non-zero status, whether through
    the [except] path of a failed write or through the [returncode]
    check of the [finally] block. *)
Definition streaming_pass (env : encoder_env) (infos : list source)
    (w h : Z) (fps : Q) (mf : Z) : pass_result :=
  match open_caps infos with
  | [] => mk_pass false None []
  | caps =>
    match ffmpeg_path env with
    | None => mk_pass false None []
    | Some _ =>
      if negb (spawn_ok env) then mk_pass false None []
      else
        let writes := delivered env (frames_loop w h 0 (Z.to_nat mf) caps) in
        mk_pass (exit_code env =? 0) (Some (w, h, fps)) writes
    end
  end.

(** The file the encoder of a pass leaves behind, decoded: it exists only
    when the encoder was spawned. *)
Definition pass_file (pr : pass_result) : option (list frame) :=
  match pr_config pr with
  | Some _ => Some (map (fun wf => codec (snd wf)) (pr_writes pr))
  | None => None
  end.

(** [get_video_info] of an intermediate file written by a pass. *)
Definition intermediate_source (pr : pass_result) (w h : Z) (fps : Q) : source :=
  mk_source EmptyString true fps (Z.of_nat (List.length (pr_writes pr))) w h
    (map (fun wf => Some (codec (snd wf))) (pr_writes pr)).

(** [video_infos[start_idx:end_idx]] for [batch_idx in range(num_batches)]. *)
Definition batch_slices (infos : list source) (bs : Z) : list (list source) :=
  let n := Z.of_nat (List.length infos) in
  let num_batches := (n + bs - 1) / bs in
  map (fun k => let start_idx := k * bs in
                let end_idx := Z.min (start_idx + bs) n in
                firstn (Z.to_nat (end_idx - start_idx)) (skipn (Z.to_nat start_idx) infos))
      (zrange num_batches).

(** The batch loop: stop at the first batch that fails. *)
Fixpoint run_batches (env : encoder_env) (batches : list (list source))
    (w h : Z) (fps : Q) (mf : Z) : list pass_result * bool :=
  match batches with
  | [] => ([], true)
  | b :: rest =>
    let pr := streaming_pass env b w h fps mf in
    if pr_ok pr then
      let (prs, ok) := run_batches env rest w h fps mf in (pr :: prs, ok)
    else ([pr], false)
  end.

(** [_create_lighten_blend_video_batched]: intermediate files live in a
    temporary directory that is removed in any case; a single
    intermediate is moved to [output_path]. *)
Definition batched_pass (env : encoder_env) (infos : list source)
    (w h : Z) (fps : Q) (mf bs : Z) : vresult :=
  let (prs, ok) := run_batches env (batch_slices infos bs) w h fps mf in
  if negb ok then mk_vresult false prs None
  else
    match prs with
    | [pr] => mk_vresult true prs (pass_file pr)
    | _ =>
      let final_infos := map (fun pr => intermediate_source pr w h fps) prs in
      let fin := streaming_pass env final_infos w h fps mf in
      mk_vresult (pr_ok fin) (prs ++ [fin]) (pass_file fin)
    end.

(** The streaming path of [create_lighten_blend_video]. *)
Definition streaming_request (env : encoder_env) (infos : list source)
    (w h : Z) (fps : Q) (mf : Z) : vresult :=
  let pr := streaming_pass env infos w h fps mf in
  mk_vresult (pr_ok pr) [pr] (pass_file pr).

(** [create_lighten_blend_video]; [None] when it raises. *)
Definition create_lighten_blend_video (env : encoder_env) (paths : list source)
  : option vresult :=
  match plan_video paths with
  | DFail => Some (mk_vresult false [] None)
  | DRaise => None
  | DRun (PStreaming infos w h fps mf) => Some (streaming_request env infos w h fps mf)
  | DRun (PBatched infos w h fps mf bs) => Some (batched_pass env infos w h fps mf bs)
  end.

End Video.

(** ** Paths and extensions *)

Definition is_sep (c : ascii) : bool := Ascii.eqb c "/"%char || Ascii.eqb c "\"%char.

Fixpoint take_until (p : ascii -> bool) (l : list ascii) : list ascii :=
  match l with
  | [] => []
  | c :: l' => if p c then [] else c :: take_until p l'
  end.

(** [Path(p).name]: what follows the last separator. *)
Definition path_name (p : string) : list ascii :=
  rev (take_until is_sep (rev (list_ascii_of_string p))).

(** [Path(p).suffix]: with [i = name.rfind('.')], [name[i:]] when
    [0 < i < len(name) - 1], else [''] . *)
Definition path_suffix (p : string) : string :=
  let name := path_name p in
  let after_dot := take_until (fun c => Ascii.eqb c "."%char) (rev name) in
  let n := List.length name in
  let k := List.length after_dot in
  if Nat.eqb k n then EmptyString
  else
    let i := (n - k - 1)%nat in
    if Nat.ltb 0 i && Nat.ltb i (n - 1) then string_of_list_ascii ("."%char :: rev after_dot)
    else EmptyString.

Definition ascii_lower (c : ascii) : ascii :=
  let n := nat_of_ascii c in
  if Nat.leb 65 n && Nat.leb n 90 then ascii_of_nat (n + 32) else c.

(** [str.lower()] on ASCII text. *)
Definition str_lower (s : string) : string :=
  string_of_list_ascii (map ascii_lower (list_ascii_of_string s)).

(** [Path(p).suffix.lower()] *)
Definition file_ext (p : string) : string := str_lower (path_suffix p).

(** [get_supported_extensions()] *)
Definition image_ext : list string := [".jpg"; ".jpeg"; ".png"; ".bmp"; ".tiff"; ".tif"]%string.
Definition video_ext : list string :=
  [".mp4"; ".avi"; ".mov"; ".mkv"; ".wmv"; ".webm"; ".flv"; ".m4v"; ".3gp"]%string.
Definition all_ext : list string := image_ext ++ video_ext.

(** [e in exts] *)
Definition in_exts (e : string) (exts : list string) : bool := existsb (String.eqb e) exts.

(** ** The still-image compositor *)

(** What a path is on disk; a directory lists [sorted(folder.rglob('*'))]. *)
Inductive node :=
| NDir (entries : list string)
| NFile
| NAbsent.

(** What OpenCV makes of a file: [cv2.imread] and, for
    [cv2.VideoCapture], whether it opens and the frames [cap.read()]
    returns before its first [ret == False]. *)
Record media := mk_media {
  m_imread : option frame;
  m_cap_opened : bool;
  m_cap_frames : list frame
}.

Definition clamp255 (z : Z) : Z := Z.max 0 (Z.min 255 z).

(** [np.clip(composite, 0, 255).astype(np.uint8)] *)
Definition clip_frame (f : frame) : frame :=
  mk_frame (fwidth f) (fheight f)
    (map (fun p : pixel => let '(b, g, r) := p in (clamp255 b, clamp255 g, clamp255 r)) (fpix f)).

Inductive branch := BImage | BVideo.

(** [if file_ext in image_ext: ... else: ...] *)
Definition file_branch (p : string) : branch :=
  if in_exts (file_ext p) image_ext then BImage else BVideo.

Section Image.

Variable fsys : string -> node.
(** [str(Path(p))]: the path in the platform's normal form (on Windows
    [/] becomes [\]; repeated separators and [.] parts are dropped). *)
Variable path_str : string -> string.
Variable decode : string -> media.
Variable resize : Z -> Z -> frame -> frame.
(** [cv2.imwrite]: [None] when it raises, else its (ignored) result. *)
Variable imwrite_result : option bool.

Definition is_file (p : string) : bool :=
  match fsys p with NFile => true | _ => false end.

(** [collect_files_from_folder] *)
Definition collect_files_from_folder (p : string) : list string :=
  match fsys p with
  | NFile => if in_exts (file_ext p) all_ext then [path_str p] else []
  | NDir entries => filter (fun f => is_file f && in_exts (file_ext f) all_ext) entries
  | NAbsent => []
  end.

(** Lines 189-196: expand folders, keep existing files as they are. *)
Definition expand_paths (paths : list string) : list string :=
  flat_map (fun p => match fsys p with
                     | NDir _ => collect_files_from_folder p
                     | NFile => [p]
                     | NAbsent => []
                     end) paths.

(** [get_frame_from_video(path)] with [frame_index = 0]. *)
Definition get_frame_from_video (p : string) : option frame :=
  if m_cap_opened (decode p) then hd_error (m_cap_frames (decode p)) else None.

(** Lines 207-213: the frame that fixes the base resolution. *)
Definition first_frame_of (p : string) : option frame :=
  match file_branch p with
  | BImage => m_imread (decode p)
  | BVideo => get_frame_from_video p
  end.

(** The frames one loop iteration merges: the decoded image, or every
    frame of the video; nothing when the file cannot be read. *)
Definition file_frames (p : string) : list frame :=
  match file_branch p with
  | BImage => match m_imread (decode p) with Some f => [f] | None => [] end
  | BVideo => if m_cap_opened (decode p) then m_cap_frames (decode p) else []
  end.

(** One iteration of [for idx, file_path in enumerate(all_files)]
    (no exception raised by OpenCV or numpy). *)
Definition process_file (w h : Z) (composite : frame) (p : string) : frame :=
  fold_left (fun c f => np_maximum c (fit resize w h f)) (file_frames p) composite.

(** [create_lighten_blend_image]: return value and the image written. *)
Definition create_lighten_blend_image (paths : list string) : bool * option frame :=
  match paths with
  | [] => (false, None)
  | _ =>
    match expand_paths paths with
    | [] => (false, None)
    | (first :: _) as all_files =>
      match first_frame_of first with
      | None => (false, None)
      | Some ff =>
        let w := fwidth ff in
        let h := fheight ff in
        let composite := fold_left (process_file w h) all_files (black w h) in
        match imwrite_result with
        | None => (false, None)
        | Some true => (true, Some (clip_frame composite))
        | Some false => (true, None)
        end
      end
    end
  end.

End Image.

(** ** Auxiliary definitions used in the statements *)

(** The frame the [i]-th [cap.read()] of a source returns. *)
Definition read_at (s : source) (i : Z) : option frame :=
  match nth_error (s_reads s) (Z.to_nat i) with
  | Some (Some f) => Some f
  | _ => None
  end.

(** The frames that output index [i] merges: one per source whose
    [frame_count > i] and whose read at [i] succeeds, resized if needed. *)
Definition active_frames (resize : Z -> Z -> frame -> frame) (w h : Z)
    (srcs : list source) (i : Z) : list frame :=
  flat_map (fun s => if i <? s_frame_count s then
                       match read_at s i with
                       | Some f => [fit resize w h f]
                       | None => []
                       end
                     else []) srcs.

(** Every frame a source yields is, once brought to [w x h], a
    well-formed [w x h] BGR [uint8] frame. *)
Definition reads_fit_okb (resize : Z -> Z -> frame -> frame) (w h : Z)
    (infos : list source) : bool :=
  forallb (fun s => forallb (fun r => match r with
                                      | Some f => wf_frameb w h (fit resize w h f)
                                      | None => true
                                      end) (s_reads s)) infos.

(** What one capture contributes to the frame of index [idx], and the
    capture afterwards. *)
Definition cap_contrib (resize : Z -> Z -> frame -> frame) (w h idx : Z) (c : cap)
  : list frame :=
  if idx <? s_frame_count (c_src c) then
    match fst (cap_read c) with
    | Some f => [fit resize w h f]
    | None => []
    end
  else [].

Definition cap_advance (idx : Z) (c : cap) : cap :=
  if idx <? s_frame_count (c_src c) then snd (cap_read c) else c.

Definition encoder_available (env : encoder_env) : Prop :=
  ffmpeg_path env <> None /\ spawn_ok env = true.

Definition is_batched (d : vdecision) : bool :=
  match d with
  | DRun (PBatched _ _ _ _ _ _) => true
  | _ => false
  end.

(** ** Concrete inputs *)

(** Nearest-neighbour sampling, a resampler to instantiate [resize] with. *)
Definition nearest_resize (w h : Z) (f : frame) : frame :=
  mk_frame w h
    (map (fun k => let x := k mod w in
                   let y := k / w in
                   nth (Z.to_nat (y * fheight f / h * fwidth f + x * fwidth f / w))
                       (fpix f) (0, 0, 0))
         (zrange (w * h))).

Definition demo_px (b g r : Z) : frame := mk_frame 1 1 [(b, g, r)].

Definition demo_a : source :=
  mk_source "a.mp4" true (Qmake 30 1) 2 1 1 [Some (demo_px 0 0 255); Some (demo_px 0 10 0)].

Definition demo_b : source :=
  mk_source "b.mp4" true (Qmake 30 1) 3 1 1
    [Some (demo_px 5 0 0); Some (demo_px 0 0 0); Some (demo_px 7 7 7)].

Definition demo_env : encoder_env := mk_env (Some "ffmpeg"%string) true 0 None.

(** The composite of a list of files: every frame they contribute,
    resized to [w x h], merged into a black frame. *)
Definition image_composite (decode : string -> media) (resize : Z -> Z -> frame -> frame)
    (w h : Z) (files : list string) : frame :=
  fold_left np_maximum
    (flat_map (fun p => map (fit resize w h) (file_frames decode p)) files) (black w h).

(** [str(Path(p))] on the demo paths, which are already in normal form. *)
Definition demo_path_str (p : string) : string := p.

Definition demo_fsys (p : string) : node :=
  if String.eqb p "shots" then NDir ["shots/a.png"; "shots/notes.txt"]%string
  else if String.eqb p "bad.png" || String.eqb p "red.png" || String.eqb p "blue.png"
     || String.eqb p "clip.xyz" || String.eqb p "shots/a.png" || String.eqb p "shots/notes.txt"
  then NFile else NAbsent.

(** [bad.png] does not decode, [clip.xyz] opens as a one-frame video. *)
Definition demo_decode (p : string) : media :=
  if String.eqb p "red.png" then mk_media (Some (demo_px 0 0 255)) false []
  else if String.eqb p "blue.png" then mk_media (Some (demo_px 255 0 0)) false []
  else if String.eqb p "clip.xyz" then mk_media None true [demo_px 0 9 0]
  else mk_media None false [].

Definition demo_no_ffmpeg : encoder_env := mk_env None true 0 None.


(** The frames a spawned pass over the open sources [b] writes: frame
    [k] is the maximum of what the sources active at [k] contribute. *)
Definition pass_writes (resize : Z -> Z -> frame -> frame) (w h mf : Z) (b : list source)
  : list (Z * frame) :=
  map (fun k => (Z.of_nat k,
                 fold_left np_maximum (active_frames resize w h b (Z.of_nat k)) (black w h)))
      (seq 0 (Z.to_nat mf)).

(** A lossy codec for the counterexample to C3: the encoder's [yuv420p]
    pixel format keeps one luma sample per pixel but one pair of chroma
    samples per 2 x 2 block.  Pixels go to the reversible YCoCg-R colour
    space, chroma is averaged (rounded down) over each block, and the
    decoder converts back and saturates to [0, 255]. *)
Definition ycocg (p : pixel) : Z * Z * Z :=
  let '(b, g, r) := p in
  let co := r - b in
  let t := b + Z.shiftr co 1 in
  let cg := g - t in
  (t + Z.shiftr cg 1, co, cg).

Definition ycocg_inv (c : Z * Z * Z) : pixel :=
  let '(y, co, cg) := c in
  let t := y - Z.shiftr cg 1 in
  let g := cg + t in
  let b := t - Z.shiftr co 1 in
  (clamp255 b, clamp255 g, clamp255 (b + co)).

Definition yuv420_roundtrip (f : frame) : frame :=
  let w := fwidth f in
  let px := map ycocg (fpix f) in
  let idx := zrange (Z.of_nat (List.length px)) in
  let at_ i := nth (Z.to_nat i) px (0, 0, 0) in
  let same_block i j := (i mod w / 2 =? j mod w / 2) && (i / w / 2 =? j / w / 2) in
  let avg (sel : Z * Z * Z -> Z) i :=
    let m := filter (same_block i) idx in
    fold_left Z.add (map (fun j => sel (at_ j)) m) 0 / Z.of_nat (List.length m) in
  mk_frame w (fheight f)
    (map (fun i => let '(y, _, _) := at_ i in
                   ycocg_inv (y, avg (fun c => let '(_, co, _) := c in co) i,
                                 avg (fun c => let '(_, _, cg) := c in cg) i)) idx).

(** Two one-frame 2 x 2 videos: one red pixel on black, and all black. *)
Definition demo_red_corner : source :=
  mk_source "c.mp4" true (Qmake 30 1) 1 2 2
    [Some (mk_frame 2 2 [(0, 0, 255); (0, 0, 0); (0, 0, 0); (0, 0, 0)])].

Definition demo_black : source :=
  mk_source "d.mp4" true (Qmake 30 1) 1 2 2 [Some (black 2 2)].

(** ** More of [lighten_blend_video.py] *)

(** [calculate_frame_memory(width, height, num_videos)]: one frame per
    video plus the compositing and output buffers. *)
Definition calculate_frame_memory (width height num_videos : Z) : Z :=
  let frame_size := width * height * 3 in
  frame_size * (num_videos + 2).

(** ** More of [lighten_blend_image.py] *)

(** [if max_frames and len(frames) >= max_frames: break] ([max_frames]
    is [None] or an [int]; [0] is falsy). *)
Definition max_frames_reached (max_frames : option Z) (n : nat) : bool :=
  match max_frames with
  | Some m => negb (m =? 0) && (m <=? Z.of_nat n)
  | None => false
  end.

(** The [while True] loop of [extract_frames_from_video] over the frames
    the capture still returns; [None] is the [ZeroDivisionError] of
    [frame_idx % step] for [step == 0]. *)
Fixpoint extract_loop (step : Z) (max_frames : option Z) (frame_idx : Z)
    (frames rest : list frame) : option (list frame) :=
  if max_frames_reached max_frames (List.length frames) then Some frames
  else
    match rest with
    | [] => Some frames
    | f :: rest' =>
      if step =? 0 then None
      else extract_loop step max_frames (frame_idx + 1)
             (if frame_idx mod step =? 0 then frames ++ [f] else frames) rest'
    end.

(** [extract_frames_from_video(video_path, step, max_frames)] *)
Definition extract_frames_from_video (decode : string -> media) (video_path : string)
    (step : Z) (max_frames : option Z) : option (list frame) :=
  if m_cap_opened (decode video_path)
  then extract_loop step max_frames 0 [] (m_cap_frames (decode video_path))
  else Some [].

(** ** [main.py]: the file list of [App] *)

Definition is_brace (c : ascii) : bool := Ascii.eqb c "{"%char || Ascii.eqb c "}"%char.

Fixpoint drop_while (p : ascii -> bool) (l : list ascii) : list ascii :=
  match l with
  | [] => []
  | c :: l' => if p c then drop_while p l' else l
  end.

(** [path.strip('{}')] *)
Definition strip_braces (s : string) : string :=
  string_of_list_ascii
    (rev (drop_while is_brace (rev (drop_while is_brace (list_ascii_of_string s))))).

(** [if path not in self.file_paths: self.file_paths.append(path);
    added_count += 1] *)
Definition add_if_new (st : list string * Z) (path : string) : list string * Z :=
  let (file_paths, added_count) := st in
  if existsb (String.eqb path) file_paths then st
  else (file_paths ++ [path], added_count + 1).

(** [App.on_drop] on the list [self.splitlist(event.data)]: the new
    [self.file_paths] and [added_count]. *)
Definition on_drop (fsys : string -> node) (path_str : string -> string)
    (file_paths paths : list string)
  : list string * Z :=
  fold_left (fun st raw =>
               let path := strip_braces raw in
               match fsys path with
               | NFile => if in_exts (file_ext path) all_ext then add_if_new st path else st
               | NDir _ => fold_left add_if_new (collect_files_from_folder fsys path_str path) st
               | NAbsent => st
               end) paths (file_paths, 0).

(** Lines 164-179: the files one dropped path contributes to the list,
    its braces stripped: itself if it is a file with a supported
    extension, what [collect_files_from_folder] returns for a folder,
    nothing otherwise. *)
Definition drop_found (fsys : string -> node) (path_str : string -> string) (raw : string)
  : list string :=
  let path := strip_braces raw in
  match fsys path with
  | NFile => if in_exts (file_ext path) all_ext then [path] else []
  | NDir _ => collect_files_from_folder fsys path_str path
  | NAbsent => []
  end.

(** [App.add_files_dialog] on the paths [filedialog.askopenfilenames]
    returns. *)
Definition add_files_dialog (file_paths chosen : list string) : list string * Z :=
  fold_left add_if_new chosen (file_paths, 0).

(** [App.remove_at(index)]: [del self.file_paths[index]] when in range. *)
Definition remove_at (file_paths : list string) (index : Z) : list string :=
  if (0 <=? index) && (index <? Z.of_nat (List.length file_paths))
  then firstn (Z.to_nat index) file_paths ++ skipn (S (Z.to_nat index)) file_paths
  else file_paths.

Definition is_video_file (f : string) : bool := in_exts (file_ext f) video_ext.

(** [App.update_button_state]: the count shown and whether the image and
    video buttons are ["normal"]. *)
Record buttons := mk_buttons { b_count : Z; b_image : bool; b_video : bool }.

Definition update_button_state (file_paths : list string) : buttons :=
  let count := Z.of_nat (List.length file_paths) in
  let video_count := Z.of_nat (List.length (filter is_video_file file_paths)) in
  mk_buttons count (2 <=? count) (2 <=? video_count).

(** What [App.create_image] and [App.create_video] do: warn, stop when
    the save dialog is cancelled, or start the task on these files. *)
Inductive ui_request :=
| UWarn
| UCancel
| URunImage (files : list string) (output_path : string)
| URunVideo (files : list string) (output_path : string).

(** [App.create_image], [output_path] being what [asksaveasfilename]
    returns ([''] on cancel). *)
Definition create_image (file_paths : list string) (output_path : string) : ui_request :=
  if Z.of_nat (List.length file_paths) <? 2 then UWarn
  else if String.eqb output_path EmptyString then UCancel
  else URunImage file_paths output_path.

(** [App.create_video] *)
Definition create_video (file_paths : list string) (output_path : string) : ui_request :=
  let video_files := filter is_video_file file_paths in
  if Z.of_nat (List.length video_files) <? 2 then UWarn
  else if String.eqb output_path EmptyString then UCancel
  else URunVideo video_files output_path.

(** ** [ffmpeg_manager.download_and_setup] *)

(** What the calls of [download_and_setup] meet: [is_installed()] at
    entry and at the end, whether [os.makedirs] succeeds, whether
    [ffmpeg.zip] is already there, whether [requests.get] with
    [raise_for_status()], writing the chunks, [extractall] and
    [os.remove(zip_path)] succeed. *)
Record setup_world := mk_world {
  w_installed_before : bool;
  w_makedirs_ok : bool;
  w_zip_before : bool;
  w_get_ok : bool;
  w_write_ok : bool;
  w_extract_ok : bool;
  w_remove_ok : bool;
  w_installed_after : bool
}.

(** The return value ([None] when an exception escapes), whether the
    download was requested, and whether [ffmpeg.zip] is left behind. *)
Record setup_outcome := mk_outcome {
  so_result : option bool;
  so_requested : bool;
  so_zip_left : bool
}.

Definition download_and_setup (wd : setup_world) : setup_outcome :=
  if w_installed_before wd then mk_outcome (Some true) false (w_zip_before wd)
  else if negb (w_makedirs_ok wd) then mk_outcome None false (w_zip_before wd)
  else
    (* [except Exception]: remove the zip when it exists, return False *)
    let handler (zip_exists : bool) :=
      if zip_exists
      then (if w_remove_ok wd then mk_outcome (Some false) true false
            else mk_outcome None true true)
      else mk_outcome (Some false) true false in
    if negb (w_get_ok wd) then handler (w_zip_before wd)
    else if negb (w_write_ok wd) then handler true
    else if negb (w_extract_ok wd) then handler true
    else if negb (w_remove_ok wd) then handler true
    else mk_outcome (Some (w_installed_after wd)) true false.

(** ** Auxiliary definitions for the further properties *)

(** Every [step]-th frame, counting from index [idx]. *)
Fixpoint sample_from (step idx : Z) (fs : list frame) : list frame :=
  match fs with
  | [] => []
  | f :: fs' => (if idx mod step =? 0 then [f] else []) ++ sample_from step (idx + 1) fs'
  end.

(** Every frame of every file, once resized, is a [w x h] [uint8] frame. *)
Definition files_fit_okb (decode : string -> media) (resize : Z -> Z -> frame -> frame)
    (w h : Z) (files : list string) : bool :=
  forallb (fun p => forallb (fun f => wf_frameb w h (fit resize w h f)) (file_frames decode p))
    files.

(** * Proofs *)

(** ** Algebra of the per-channel maximum *)

Lemma pmax_comm (p q : pixel) : pmax p q = pmax q p.
Proof.
  destruct p as [[b1 g1] r1], q as [[b2 g2] r2]; simpl.
  now rewrite (Z.max_comm b1), (Z.max_comm g1), (Z.max_comm r1).
Qed.

Lemma pmax_rcomm (a y f : pixel) : pmax (pmax a y) f = pmax (pmax a f) y.
Proof.
  destruct a as [[b1 g1] r1], y as [[b2 g2] r2], f as [[b3 g3] r3]; simpl.
  f_equal; [f_equal|]; lia.
Qed.

Lemma pmax_idem (a y : pixel) : pmax (pmax a y) y = pmax a y.
Proof.
  destruct a as [[b1 g1] r1], y as [[b2 g2] r2]; simpl.
  f_equal; [f_equal|]; lia.
Qed.

Lemma pmax_zero_l (p : pixel) : pixel_okb p = true -> pmax (0, 0, 0) p = p.
Proof.
  destruct p as [[b g] r]; simpl; intros H.
  repeat rewrite andb_true_iff in H; repeat rewrite Z.leb_le in H.
  f_equal; [f_equal|]; lia.
Qed.

Lemma pmax_ok (p q : pixel) :
  pixel_okb p = true -> pixel_okb q = true -> pixel_okb (pmax p q) = true.
Proof.
  destruct p as [[b1 g1] r1], q as [[b2 g2] r2]; simpl; intros H1 H2.
  repeat rewrite andb_true_iff in *; repeat rewrite Z.leb_le in *; lia.
Qed.

Lemma zip_max_comm xs ys : zip_max xs ys = zip_max ys xs.
Proof.
  revert ys; induction xs as [|x xs IH]; intros [|y ys]; simpl; auto.
  now rewrite pmax_comm, IH.
Qed.

Lemma zip_max_rcomm a y f : zip_max (zip_max a y) f = zip_max (zip_max a f) y.
Proof.
  revert y f; induction a as [|x a IH]; intros [|y ys] [|f fs]; simpl; auto.
  now rewrite pmax_rcomm, IH.
Qed.

Lemma zip_max_idem a y : zip_max (zip_max a y) y = zip_max a y.
Proof.
  revert y; induction a as [|x a IH]; intros [|y ys]; simpl; auto.
  now rewrite pmax_idem, IH.
Qed.

Lemma zip_max_zeros px :
  forallb pixel_okb px = true -> zip_max (repeat (0, 0, 0) (List.length px)) px = px.
Proof.
  induction px as [|p px IH]; cbn [repeat List.length zip_max forallb]; auto.
  rewrite andb_true_iff; intros [Hp Hpx].
  now rewrite pmax_zero_l, IH.
Qed.

Lemma zip_max_length xs ys :
  List.length (zip_max xs ys) = Nat.min (List.length xs) (List.length ys).
Proof.
  revert ys; induction xs as [|x xs IH]; intros [|y ys]; simpl; auto.
Qed.

Lemma zip_max_ok xs ys :
  forallb pixel_okb xs = true -> forallb pixel_okb ys = true ->
  forallb pixel_okb (zip_max xs ys) = true.
Proof.
  revert ys; induction xs as [|x xs IH]; intros [|y ys]; simpl; auto.
  rewrite !andb_true_iff; intros [Hx Hxs] [Hy Hys]; split; auto using pmax_ok.
Qed.

Lemma np_maximum_rcomm a y f :
  np_maximum (np_maximum a y) f = np_maximum (np_maximum a f) y.
Proof. unfold np_maximum; simpl; now rewrite zip_max_rcomm. Qed.

Lemma np_maximum_idem a y : np_maximum (np_maximum a y) y = np_maximum a y.
Proof. unfold np_maximum; simpl; now rewrite zip_max_idem. Qed.

Lemma np_maximum_comm a b :
  fwidth a = fwidth b -> fheight a = fheight b -> np_maximum a b = np_maximum b a.
Proof.
  unfold np_maximum; intros Hw Hh; rewrite Hw, Hh, zip_max_comm; reflexivity.
Qed.

Lemma wf_frameb_iff w h f :
  wf_frameb w h f = true <->
  fwidth f = w /\ fheight f = h /\ List.length (fpix f) = Z.to_nat (w * h)
  /\ forallb pixel_okb (fpix f) = true.
Proof.
  unfold wf_frameb; rewrite !andb_true_iff, !Z.eqb_eq, Nat.eqb_eq; tauto.
Qed.

Lemma black_wf w h : wf_frameb w h (black w h) = true.
Proof.
  apply wf_frameb_iff; unfold black; simpl; repeat split.
  - apply repeat_length.
  - induction (Z.to_nat (w * h)); simpl; auto.
Qed.

Lemma black_np_maximum w h f : wf_frameb w h f = true -> np_maximum (black w h) f = f.
Proof.
  intros Hf; apply wf_frameb_iff in Hf as (Hw & Hh & Hl & Hok).
  destruct f as [fw fh px]; simpl in *; subst.
  unfold np_maximum, black; simpl; rewrite <- Hl, zip_max_zeros; auto.
Qed.

Lemma np_maximum_wf w h a b :
  wf_frameb w h a = true -> wf_frameb w h b = true -> wf_frameb w h (np_maximum a b) = true.
Proof.
  rewrite !wf_frameb_iff; intros (Ha1 & Ha2 & Ha3 & Ha4) (Hb1 & Hb2 & Hb3 & Hb4).
  unfold np_maximum; simpl; repeat split; auto.
  - rewrite zip_max_length; lia.
  - now apply zip_max_ok.
Qed.

Create HintDb lighten.
Hint Resolve black_wf np_maximum_wf : lighten.

(** ** Folding the maximum over a list of frames *)

Lemma fold_max_pull L a y :
  fold_left np_maximum L (np_maximum a y) = np_maximum (fold_left np_maximum L a) y.
Proof.
  revert a; induction L as [|f L IH]; intros a; simpl; auto.
  now rewrite np_maximum_rcomm, IH.
Qed.

Lemma fold_max_dims L a :
  fwidth (fold_left np_maximum L a) = fwidth a /\ fheight (fold_left np_maximum L a) = fheight a.
Proof.
  revert a; induction L as [|f L IH]; intros a; simpl; auto.
  destruct (IH (np_maximum a f)) as [H1 H2]; rewrite H1, H2; auto.
Qed.

Lemma fold_max_twice L a :
  fold_left np_maximum L (fold_left np_maximum L a) = fold_left np_maximum L a.
Proof.
  revert a; induction L as [|f L IH]; intros a; simpl; auto.
  rewrite fold_max_pull, IH, <- fold_max_pull, np_maximum_idem; reflexivity.
Qed.

Lemma fold_max_wf w h L a :
  wf_frameb w h a = true -> Forall (fun f => wf_frameb w h f = true) L ->
  wf_frameb w h (fold_left np_maximum L a) = true.
Proof.
  intros Ha HL; revert a Ha; induction HL as [|f L Hf HL IH]; intros a Ha; simpl; auto with lighten.
Qed.

(** Folding from a well-formed start is folding from black, then one more
    maximum with the start. *)
Lemma fold_max_from w h L x :
  wf_frameb w h x = true ->
  fold_left np_maximum L x = np_maximum x (fold_left np_maximum L (black w h)).
Proof.
  intros Hx.
  rewrite <- (black_np_maximum w h x Hx) at 1.
  rewrite fold_max_pull.
  apply wf_frameb_iff in Hx as (Hw & Hh & _).
  destruct (fold_max_dims L (black w h)) as [H1 H2].
  apply np_maximum_comm; simpl in *; congruence.
Qed.

Lemma fold_max_app L1 L2 a :
  fold_left np_maximum (L1 ++ L2) a = fold_left np_maximum L2 (fold_left np_maximum L1 a).
Proof. apply fold_left_app. Qed.

Lemma fold_merge_some L c :
  fold_left merge_into L (Some c) = Some (fold_left np_maximum L c).
Proof.
  revert c; induction L as [|f L IH]; intros c; simpl; auto.
Qed.

(** The first frame seeds the composite; black stands in when there is none. *)
Lemma merge_from_none w h L :
  Forall (fun f => wf_frameb w h f = true) L ->
  match fold_left merge_into L None with Some f => f | None => black w h end
  = fold_left np_maximum L (black w h).
Proof.
  intros HL; destruct HL as [|f L Hf _]; simpl; auto.
  rewrite fold_merge_some, black_np_maximum; auto.
Qed.

(** ** The streaming loop *)

Section StreamingLoop.

Variable resize : Z -> Z -> frame -> frame.

Lemma frame_step_eq w h idx caps acc :
  frame_step resize w h idx caps acc =
  (fold_left merge_into (flat_map (cap_contrib resize w h idx) caps) acc,
   map (cap_advance idx) caps).
Proof.
  revert acc; induction caps as [|c caps IH]; intros acc; simpl; auto.
  unfold cap_contrib at 1, cap_advance at 1.
  destruct (idx <? s_frame_count (c_src c)); simpl.
  - unfold cap_read; simpl.
    destruct (nth_error (s_reads (c_src c)) (c_pos c)) as [[f|]|]; simpl;
      rewrite IH; reflexivity.
  - rewrite IH; reflexivity.
Qed.

Lemma cap_contrib_active w h idx caps :
  0 <= idx ->
  Forall (fun c => idx < s_frame_count (c_src c) -> c_pos c = Z.to_nat idx) caps ->
  flat_map (cap_contrib resize w h idx) caps = active_frames resize w h (map c_src caps) idx.
Proof.
  intros Hidx Hs; induction Hs as [|c caps Hc Hs IH]; simpl; auto.
  rewrite IH; f_equal.
  unfold cap_contrib, read_at, cap_read; simpl.
  destruct (Z.ltb_spec idx (s_frame_count (c_src c))) as [Hlt|]; auto.
  now rewrite (Hc Hlt).
Qed.

Lemma cap_advance_src idx caps : map c_src (map (cap_advance idx) caps) = map c_src caps.
Proof.
  induction caps as [|c caps IH]; simpl; auto.
  rewrite IH; unfold cap_advance; destruct (idx <? s_frame_count (c_src c)); auto.
Qed.

Lemma cap_advance_sync idx caps :
  0 <= idx ->
  Forall (fun c => idx < s_frame_count (c_src c) -> c_pos c = Z.to_nat idx) caps ->
  Forall (fun c => idx + 1 < s_frame_count (c_src c) -> c_pos c = Z.to_nat (idx + 1))
    (map (cap_advance idx) caps).
Proof.
  intros Hidx Hs; induction Hs as [|c caps Hc Hs IH]; simpl; constructor; auto.
  unfold cap_advance; destruct (Z.ltb_spec idx (s_frame_count (c_src c))) as [Hlt|Hge];
    simpl; intros Hlt'.
  - rewrite (Hc Hlt); lia.
  - lia.
Qed.

Lemma frames_loop_eq w h n : forall idx caps,
  0 <= idx ->
  Forall (fun c => idx < s_frame_count (c_src c) -> c_pos c = Z.to_nat idx) caps ->
  frames_loop resize w h idx n caps =
  map (fun k => (idx + Z.of_nat k,
                 match fold_left merge_into
                         (active_frames resize w h (map c_src caps) (idx + Z.of_nat k)) None
                 with Some f => f | None => black w h end))
      (seq 0 n).
Proof.
  induction n as [|n IH]; intros idx caps Hidx Hs; simpl; auto.
  rewrite frame_step_eq; simpl.
  rewrite IH by (lia || now apply cap_advance_sync).
  rewrite cap_advance_src, cap_contrib_active by auto.
  rewrite Z.add_0_r; f_equal.
  rewrite <- seq_shift, map_map; apply map_ext; intros k.
  replace (idx + 1 + Z.of_nat k) with (idx + Z.of_nat (S k)) by lia; reflexivity.
Qed.

Lemma open_caps_src infos : map c_src (open_caps infos) = filter s_opened infos.
Proof. unfold open_caps; rewrite map_map; apply map_id. Qed.

Lemma open_caps_sync infos :
  Forall (fun c => 0 < s_frame_count (c_src c) -> c_pos c = Z.to_nat 0) (open_caps infos).
Proof.
  unfold open_caps; apply Forall_forall; intros c Hc.
  apply in_map_iff in Hc as (s & <- & _); reflexivity.
Qed.

(** An encoder that exits with status 0 gets every frame. *)
Lemma delivered_ok env L : exit_code env = 0 -> delivered env L = L.
Proof. intros E; unfold delivered; rewrite E; reflexivity. Qed.

(** The frames delivered are a prefix of the frames the loop produces. *)
Lemma delivered_prefix env L : exists k, delivered env L = firstn k L.
Proof.
  unfold delivered; destruct (exit_code env =? 0);
    [exists (List.length L); rewrite firstn_all; reflexivity|].
  destruct (frames_read env) as [k|]; [exists k; reflexivity|].
  exists (List.length L); rewrite firstn_all; reflexivity.
Qed.

Lemma delivered_incl env L x : In x (delivered env L) -> In x L.
Proof.
  destruct (delivered_prefix env L) as [k ->]; intros H.
  rewrite <- (firstn_skipn k L); apply in_or_app; left; exact H.
Qed.

Lemma delivered_map env {A} (f : A -> Z * frame) L :
  delivered env (map f L) = map f (match exit_code env =? 0, frames_read env with
                                    | false, Some k => firstn k L
                                    | _, _ => L
                                    end).
Proof.
  unfold delivered; destruct (exit_code env =? 0); [reflexivity|].
  destruct (frames_read env); [apply firstn_map|reflexivity].
Qed.

(** What a streaming pass that reaches its frame loop writes. *)
Lemma streaming_pass_spawned env infos w h fps mf :
  open_caps infos <> [] -> encoder_available env ->
  streaming_pass resize env infos w h fps mf =
  mk_pass (exit_code env =? 0) (Some (w, h, fps))
    (delivered env
      (map (fun k => (Z.of_nat k,
                      match fold_left merge_into
                              (active_frames resize w h (filter s_opened infos) (Z.of_nat k)) None
                      with Some f => f | None => black w h end))
           (seq 0 (Z.to_nat mf)))).
Proof.
  intros Hcaps [Hpath Hspawn].
  unfold streaming_pass.
  destruct (open_caps infos) as [|c cs] eqn:E; [congruence|].
  destruct (ffmpeg_path env) as [p|]; [|congruence].
  rewrite Hspawn; simpl.
  rewrite <- E, frames_loop_eq by (lia || apply open_caps_sync).
  rewrite open_caps_src; reflexivity.
Qed.

(** Without a usable encoder a pass writes nothing and spawns nothing. *)
Lemma streaming_pass_no_encoder env infos w h fps mf :
  ffmpeg_path env = None \/ spawn_ok env = false ->
  streaming_pass resize env infos w h fps mf = mk_pass false None [].
Proof.
  intros Henv; unfold streaming_pass.
  destruct (open_caps infos); auto.
  destruct Henv as [-> | Hs]; auto.
  destruct (ffmpeg_path env); auto; now rewrite Hs.
Qed.

Lemma streaming_pass_config env infos w h fps mf :
  pr_config (streaming_pass resize env infos w h fps mf) = None \/
  pr_config (streaming_pass resize env infos w h fps mf) = Some (w, h, fps).
Proof.
  unfold streaming_pass.
  destruct (open_caps infos); auto.
  destruct (ffmpeg_path env); auto; destruct (spawn_ok env); simpl; auto.
Qed.

End StreamingLoop.

(** ** Batch slicing *)

Lemma firstn_then_skipn {A} (l : list A) a b :
  (a <= List.length l)%nat -> firstn a l ++ firstn b (skipn a l) = firstn (a + b) l.
Proof.
  intros Ha.
  rewrite <- (firstn_skipn a l) at 3.
  rewrite <- (firstn_length_le l Ha) at 3.
  rewrite firstn_app_2; reflexivity.
Qed.

Section Slices.

Variable infos : list source.
Variable bs : Z.
Hypothesis Hbs : 1 <= bs.

Let N := Z.of_nat (List.length infos).

Let slice (k : Z) : list source :=
  firstn (Z.to_nat (Z.min (k * bs + bs) N - k * bs)) (skipn (Z.to_nat (k * bs)) infos).

Lemma batch_slices_eq :
  batch_slices infos bs = map (fun k => slice (Z.of_nat k)) (seq 0 (Z.to_nat ((N + bs - 1) / bs))).
Proof. unfold batch_slices, zrange; rewrite map_map; reflexivity. Qed.

Lemma slices_prefix m :
  List.concat (map (fun k => slice (Z.of_nat k)) (seq 0 m)) =
  firstn (Z.to_nat (Z.min (Z.of_nat m * bs) N)) infos.
Proof.
  induction m as [|m IH].
  - simpl; rewrite Z.min_l by (unfold N; lia); reflexivity.
  - rewrite seq_S, map_app, concat_app, IH; cbn [map List.concat]; rewrite app_nil_r.
    unfold slice.
    destruct (Z_lt_ge_dec (Z.of_nat m * bs) N) as [Hlt|Hge].
    + rewrite Z.min_l by lia.
      rewrite firstn_then_skipn by (unfold N in Hlt; lia).
      f_equal; rewrite <- Z2Nat.inj_add by nia; f_equal.
      rewrite Nat2Z.inj_succ, Z.mul_succ_l; lia.
    + rewrite skipn_all2 by (unfold N in Hge; lia).
      rewrite firstn_nil, app_nil_r; f_equal.
      rewrite Nat2Z.inj_succ, Z.mul_succ_l; lia.
Qed.

Lemma num_batches_cover : N <= (N + bs - 1) / bs * bs.
Proof.
  pose proof (Z.div_mod (N + bs - 1) bs ltac:(lia)).
  pose proof (Z.mod_pos_bound (N + bs - 1) bs ltac:(lia)).
  nia.
Qed.

Lemma batch_slices_concat : List.concat (batch_slices infos bs) = infos.
Proof.
  rewrite batch_slices_eq, slices_prefix.
  assert (0 <= N) by (unfold N; lia).
  assert (0 <= (N + bs - 1) / bs) by (apply Z.div_pos; lia).
  pose proof num_batches_cover.
  rewrite Z2Nat.id by lia.
  rewrite Z.min_r by lia.
  unfold N; rewrite Nat2Z.id; apply firstn_all.
Qed.

Lemma batch_slices_nonempty b : In b (batch_slices infos bs) -> b <> [].
Proof.
  rewrite batch_slices_eq; intros Hb.
  apply in_map_iff in Hb as (k & <- & Hk); apply in_seq in Hk.
  assert (0 <= N) by (unfold N; lia).
  pose proof (Z.div_mod (N + bs - 1) bs ltac:(lia)).
  pose proof (Z.mod_pos_bound (N + bs - 1) bs ltac:(lia)).
  assert (Hk' : Z.of_nat k + 1 <= (N + bs - 1) / bs) by lia.
  assert (Hlt : Z.of_nat k * bs < N) by nia.
  unfold slice; intros Hnil.
  apply (f_equal (@List.length source)) in Hnil.
  rewrite length_firstn, length_skipn in Hnil; simpl in Hnil.
  unfold N in *; lia.
Qed.

End Slices.

(** ** The passes a request runs *)

Lemma probe_videos_opened srcs s : In s (probe_videos srcs) -> s_opened s = true.
Proof.
  unfold probe_videos, get_video_info; rewrite filter_In.
  destruct (s_opened s); simpl; intuition discriminate.
Qed.

Lemma probe_videos_positive srcs s : In s (probe_videos srcs) -> 0 < s_frame_count s.
Proof.
  unfold probe_videos, get_video_info; rewrite filter_In.
  destruct (s_opened s); simpl; [rewrite Z.ltb_lt|]; intuition discriminate.
Qed.

Lemma open_caps_not_nil xs s : In s xs -> s_opened s = true -> open_caps xs <> [].
Proof.
  unfold open_caps; intros Hin Ho Hnil.
  apply map_eq_nil in Hnil.
  assert (Hf : In s (filter s_opened xs)) by (apply filter_In; auto).
  rewrite Hnil in Hf; destruct Hf.
Qed.

Lemma some_inj {A} (x y : A) : Some x = Some y -> x = y.
Proof. intros H; inversion H; reflexivity. Qed.

Lemma max_concurrent_videos_pos w h L : max_concurrent_videos w h = Some L -> 1 <= L.
Proof.
  unfold max_concurrent_videos; cbv zeta.
  destruct (w * h * 3 =? 0); intros H; [discriminate|].
  apply some_inj in H; rewrite <- H; apply Z.le_max_l.
Qed.

Lemma plan_video_run srcs p :
  plan_video srcs = DRun p ->
  exists first rest L,
    probe_videos srcs = first :: rest /\
    max_concurrent_videos (s_width first) (s_height first) = Some L /\
    p = (if Z.of_nat (List.length (first :: rest)) >? L
         then PBatched (first :: rest) (s_width first) (s_height first)
                (normalize_fps (s_fps first)) (max_frame_count (first :: rest)) L
         else PStreaming (first :: rest) (s_width first) (s_height first)
                (normalize_fps (s_fps first)) (max_frame_count (first :: rest))).
Proof.
  unfold plan_video; destruct srcs as [|s0 srcs]; [discriminate|].
  destruct (probe_videos (s0 :: srcs)) as [|first rest] eqn:E; [discriminate|].
  destruct (max_concurrent_videos (s_width first) (s_height first)) as [L|] eqn:M;
    [|discriminate].
  intros H; exists first, rest, L; repeat split; auto.
  destruct (Z.of_nat (List.length (first :: rest)) >? L); congruence.
Qed.

Section Passes.

Variable resize : Z -> Z -> frame -> frame.
Variable codec : frame -> frame.

Lemma run_batches_passes env batches w h fps mf :
  (batches <> [] -> fst (run_batches resize env batches w h fps mf) <> []) /\
  (forall pr, In pr (fst (run_batches resize env batches w h fps mf)) ->
              exists b, In b batches /\ pr = streaming_pass resize env b w h fps mf).
Proof.
  induction batches as [|b batches IH]; simpl.
  - split; [congruence|intros pr []].
  - destruct (pr_ok (streaming_pass resize env b w h fps mf)).
    + destruct (run_batches resize env batches w h fps mf) as [prs ok] eqn:R; simpl.
      split; [congruence|].
      intros pr [<-|Hin]; [exists b; auto|].
      destruct IH as [_ IH2]; destruct (IH2 pr Hin) as (b' & Hb' & ->).
      exists b'; auto.
    + simpl; split; [congruence|].
      intros pr [<-|[]]; exists b; auto.
Qed.

Lemma batched_pass_passes env infos w h fps mf bs :
  infos <> [] -> (forall s, In s infos -> s_opened s = true) -> 1 <= bs ->
  vr_passes (batched_pass resize codec env infos w h fps mf bs) <> [] /\
  forall pr, In pr (vr_passes (batched_pass resize codec env infos w h fps mf bs)) ->
    exists xs, open_caps xs <> [] /\ pr = streaming_pass resize env xs w h fps mf.
Proof.
  intros Hne Hop Hbs.
  assert (Hcat := batch_slices_concat infos bs Hbs).
  assert (Hbne : batch_slices infos bs <> []) by (intros E; rewrite E in Hcat; auto).
  assert (Hfrom : forall pr, In pr (fst (run_batches resize env (batch_slices infos bs) w h fps mf)) ->
            exists xs, open_caps xs <> [] /\ pr = streaming_pass resize env xs w h fps mf).
  { intros pr Hpr.
    destruct (proj2 (run_batches_passes env (batch_slices infos bs) w h fps mf) pr Hpr)
      as (b & Hb & ->).
    exists b; split; auto.
    destruct b as [|s b'].
    { exfalso; exact (batch_slices_nonempty infos bs Hbs [] Hb eq_refl). }
    apply (open_caps_not_nil _ s); [now left|].
    apply Hop; rewrite <- Hcat; apply in_concat; exists (s :: b'); split; [auto|now left]. }
  pose proof (proj1 (run_batches_passes env (batch_slices infos bs) w h fps mf) Hbne) as Hprs.
  unfold batched_pass.
  destruct (run_batches resize env (batch_slices infos bs) w h fps mf) as [prs ok] eqn:R.
  simpl in Hfrom, Hprs.
  destruct ok; cbn [negb].
  - destruct prs as [|p0 [|p1 prs']]; [congruence| |].
    + cbn [vr_passes]; split; [congruence|]; auto.
    + cbn [vr_passes]; split; [intros E; apply app_eq_nil in E as [E _]; discriminate|].
      intros pr Hin; apply in_app_or in Hin as [Hin|[<-|[]]]; [now apply Hfrom|].
      eexists; split; [|reflexivity].
      apply (open_caps_not_nil _ (intermediate_source codec p0 w h fps)); [now left|reflexivity].
  - split; auto.
Qed.

(** Every pass of a request with a readable source is a streaming pass
    over captures that open, with the format and length of the first
    readable source. *)
Lemma create_passes env srcs r first rest :
  probe_videos srcs = first :: rest ->
  create_lighten_blend_video resize codec env srcs = Some r ->
  vr_passes r <> [] /\
  forall pr, In pr (vr_passes r) ->
    exists xs, open_caps xs <> [] /\
      pr = streaming_pass resize env xs (s_width first) (s_height first)
             (normalize_fps (s_fps first)) (max_frame_count (first :: rest)).
Proof.
  intros Hprobe Hcreate.
  unfold create_lighten_blend_video in Hcreate.
  destruct (plan_video srcs) as [| |p] eqn:Hplan.
  - exfalso; unfold plan_video in Hplan; destruct srcs as [|s0 srcs];
      [simpl in Hprobe; discriminate|].
    rewrite Hprobe in Hplan.
    destruct (max_concurrent_videos (s_width first) (s_height first));
      [destruct (_ >? _)|]; discriminate.
  - discriminate.
  - destruct (plan_video_run srcs p Hplan) as (first' & rest' & L & Hp & HL & ->).
    rewrite Hprobe in Hp; injection Hp as <- <-.
    assert (Hop : forall s, In s (first :: rest) -> s_opened s = true)
      by (intros s; rewrite <- Hprobe; apply probe_videos_opened).
    destruct (Z.of_nat (List.length (first :: rest)) >? L);
      apply some_inj in Hcreate; subst r.
    + apply batched_pass_passes; auto; [congruence|eapply max_concurrent_videos_pos; eauto].
    + simpl; split; [congruence|].
      intros pr [<-|[]]; eexists; split; [|reflexivity].
      apply (open_caps_not_nil _ first); [now left|apply Hop; now left].
Qed.

End Passes.

(** ** Streaming pass: frame count, order and content *)

Lemma reads_fit_okb_filter resize w h infos p :
  reads_fit_okb resize w h infos = true -> reads_fit_okb resize w h (filter p infos) = true.
Proof.
  unfold reads_fit_okb; rewrite !forallb_forall; intros H s Hs.
  apply filter_In in Hs as [Hs _]; auto.
Qed.

Lemma active_frames_wf resize w h srcs i :
  reads_fit_okb resize w h srcs = true ->
  Forall (fun f => wf_frameb w h f = true) (active_frames resize w h srcs i).
Proof.
  unfold reads_fit_okb; rewrite forallb_forall; intros H.
  apply Forall_forall; intros f Hf.
  unfold active_frames in Hf; apply in_flat_map in Hf as (s & Hs & Hf).
  destruct (i <? s_frame_count s); [|destruct Hf].
  unfold read_at in Hf.
  destruct (nth_error (s_reads s) (Z.to_nat i)) as [[g|]|] eqn:E; [|destruct Hf|destruct Hf].
  destruct Hf as [<-|[]].
  specialize (H s Hs); rewrite forallb_forall in H.
  apply (H (Some g)); eapply nth_error_In; eauto.
Qed.




(** C2: every frame the streaming pass writes at output index [i] is the
    per-channel maximum, over exactly the opened sources whose
    [frame_count > i] and whose read at [i] yields a frame, of those
    frames brought to the base resolution (black when there is none);
    sources with [frame_count <= i] contribute nothing at [i]. *)
Theorem streaming_frame_is_max_of_active resize env infos w h fps mf i fr :
  reads_fit_okb resize w h infos = true ->
  In (i, fr) (pr_writes (streaming_pass resize env infos w h fps mf)) ->
  0 <= i < mf /\
  fr = fold_left np_maximum (active_frames resize w h (filter s_opened infos) i) (black w h).
Proof.
  intros Hok Hin.
  destruct (open_caps infos) as [|c cs] eqn:E.
  { unfold streaming_pass in Hin; rewrite E in Hin; destruct Hin. }
  destruct (ffmpeg_path env) as [path|] eqn:P.
  2: { rewrite streaming_pass_no_encoder in Hin by auto; destruct Hin. }
  destruct (spawn_ok env) eqn:S.
  2: { rewrite streaming_pass_no_encoder in Hin by auto; destruct Hin. }
  rewrite streaming_pass_spawned in Hin by (congruence || (split; congruence)).
  cbn [pr_writes] in Hin; apply delivered_incl, in_map_iff in Hin as (k & Hk & Hks).
  injection Hk as <- <-.
  apply in_seq in Hks.
  split; [lia|].
  apply merge_from_none, active_frames_wf, reads_fit_okb_filter; auto.
Qed.

Lemma streaming_frame_is_max_of_active_witness :
  0 <= 0 < 3 /\
  demo_px 5 0 255 =
  fold_left np_maximum (active_frames nearest_resize 1 1 (filter s_opened [demo_a; demo_b]) 0)
    (black 1 1).
Proof.
  apply (streaming_frame_is_max_of_active nearest_resize demo_env [demo_a; demo_b] 1 1
           (Qmake 30 1) 3 0 (demo_px 5 0 255)).
  - vm_compute; reflexivity.
  - vm_compute; left; reflexivity.
Defined.

Lemma run_batches_no_encoder resize env batches w h fps mf :
  ffmpeg_path env = None \/ spawn_ok env = false ->
  run_batches resize env batches w h fps mf =
  match batches with
  | [] => ([], true)
  | _ => ([mk_pass false None []], false)
  end.
Proof.
  intros Henv; destruct batches as [|b batches]; simpl; auto.
  rewrite streaming_pass_no_encoder by auto; reflexivity.
Qed.

(** C5: when the encoder cannot be located ([get_ffmpeg_path()] gives
    nothing) or cannot be spawned, the request returns
    [False], no pass spawns an encoder or writes a frame, and nothing is
    left at the output path; the only other outcome is the exception
    raised before any pass for a zero frame size. *)
Theorem no_encoder_fails_without_output resize codec env srcs :
  ffmpeg_path env = None \/ spawn_ok env = false ->
  create_lighten_blend_video resize codec env srcs = None \/
  exists r, create_lighten_blend_video resize codec env srcs = Some r /\
            vr_ok r = false /\ vr_output r = None /\
            Forall (fun pr => pr_config pr = None /\ pr_writes pr = []) (vr_passes r).
Proof.
  intros Henv; unfold create_lighten_blend_video.
  destruct (plan_video srcs) as [| |[infos w h fps mf|infos w h fps mf bs]].
  - right; eexists; split; [reflexivity|]; simpl; auto.
  - left; reflexivity.
  - right; eexists; split; [reflexivity|].
    unfold streaming_request; rewrite streaming_pass_no_encoder by auto; simpl.
    repeat constructor.
  - right; eexists; split; [reflexivity|].
    unfold batched_pass; rewrite run_batches_no_encoder by auto.
    destruct (batch_slices infos bs); simpl.
    + rewrite streaming_pass_no_encoder by auto; simpl; repeat constructor.
    + repeat constructor.
Qed.

Lemma no_encoder_fails_without_output_witness :
  create_lighten_blend_video nearest_resize (fun f => f) demo_no_ffmpeg [demo_a; demo_b] = None \/
  exists r, create_lighten_blend_video nearest_resize (fun f => f) demo_no_ffmpeg [demo_a; demo_b]
            = Some r /\
            vr_ok r = false /\ vr_output r = None /\
            Forall (fun pr => pr_config pr = None /\ pr_writes pr = []) (vr_passes r).
Proof.
  apply no_encoder_fails_without_output; left; reflexivity.
Defined.

(** ** Concurrency limit *)

Lemma max_concurrent_videos_eq w h :
  0 < w * h * 3 ->
  max_concurrent_videos w h =
  Some (Z.max 1 ((MAX_MEMORY_BYTES - w * h * 3 * 2) / (w * h * 3))).
Proof.
  intros Hfs; unfold max_concurrent_videos; cbv zeta.
  destruct (Z.eqb_spec (w * h * 3) 0); [lia|reflexivity].
Qed.

Lemma limit_bounds fs :
  0 < fs ->
  (3 * fs <= MAX_MEMORY_BYTES /\
   (Z.max 1 ((MAX_MEMORY_BYTES - fs * 2) / fs) + 2) * fs <= MAX_MEMORY_BYTES <
   (Z.max 1 ((MAX_MEMORY_BYTES - fs * 2) / fs) + 3) * fs) \/
  (MAX_MEMORY_BYTES < 3 * fs /\ Z.max 1 ((MAX_MEMORY_BYTES - fs * 2) / fs) = 1).
Proof.
  intros Hfs.
  pose proof (Z.div_mod (MAX_MEMORY_BYTES - fs * 2) fs ltac:(lia)) as Hdm.
  pose proof (Z.mod_pos_bound (MAX_MEMORY_BYTES - fs * 2) fs Hfs) as Hmod.
  set (q := (MAX_MEMORY_BYTES - fs * 2) / fs) in *.
  set (r := (MAX_MEMORY_BYTES - fs * 2) mod fs) in *.
  destruct (Z_le_gt_dec (3 * fs) MAX_MEMORY_BYTES) as [Hle|Hgt].
  - left; assert (1 <= q) by nia.
    rewrite Z.max_r by lia; nia.
  - right; split; [lia|].
    assert (q <= 0) by nia.
    lia.
Qed.

(** C6 (amended): for a request whose first readable source has a
    positive frame size [fs = width * height * 3], the concurrency limit
    is [L = max(1, (2^30 - 2 fs) // fs)]: when three frames fit in 1 GiB,
    [L] is the largest [n] with [(n + 2) * fs <= 2^30]; when they do not,
    [L] is still 1.  Batching is used exactly when the number of
    readable sources exceeds [L]. *)
Theorem concurrency_limit_and_batching srcs first rest :
  probe_videos srcs = first :: rest ->
  0 < s_width first * s_height first * 3 ->
  exists L,
    max_concurrent_videos (s_width first) (s_height first) = Some L /\ 1 <= L /\
    ((3 * (s_width first * s_height first * 3) <= MAX_MEMORY_BYTES /\
      (L + 2) * (s_width first * s_height first * 3) <= MAX_MEMORY_BYTES <
      (L + 3) * (s_width first * s_height first * 3)) \/
     (MAX_MEMORY_BYTES < 3 * (s_width first * s_height first * 3) /\ L = 1)) /\
    (is_batched (plan_video srcs) = true <-> L < Z.of_nat (List.length (first :: rest))).
Proof.
  intros Hprobe Hfs.
  pose proof (max_concurrent_videos_eq _ _ Hfs) as HL.
  pose proof (limit_bounds _ Hfs) as Hb.
  remember (Z.max 1 ((MAX_MEMORY_BYTES - s_width first * s_height first * 3 * 2)
                     / (s_width first * s_height first * 3))) as L eqn:EL.
  assert (H1 : 1 <= L) by (rewrite EL; apply Z.le_max_l).
  clear EL.
  exists L; split; [exact HL|]; split; [exact H1|]; split; [exact Hb|].
  unfold plan_video; destruct srcs as [|s0 srcs]; [simpl in Hprobe; discriminate|].
  rewrite Hprobe; cbv zeta; rewrite HL.
  rewrite Z.gtb_ltb.
  destruct (Z.ltb_spec L (Z.of_nat (List.length (first :: rest)))) as [Hlt|Hge];
    cbn [is_batched]; split; intros; auto; try discriminate; lia.
Qed.

Lemma concurrency_limit_and_batching_witness :
  exists L,
    max_concurrent_videos 1 1 = Some L /\ 1 <= L /\
    ((3 * (1 * 1 * 3) <= MAX_MEMORY_BYTES /\
      (L + 2) * (1 * 1 * 3) <= MAX_MEMORY_BYTES < (L + 3) * (1 * 1 * 3)) \/
     (MAX_MEMORY_BYTES < 3 * (1 * 1 * 3) /\ L = 1)) /\
    (is_batched (plan_video [demo_a; demo_b]) = true <->
     L < Z.of_nat (List.length [demo_a; demo_b])).
Proof.
  apply (concurrency_limit_and_batching [demo_a; demo_b] demo_a [demo_b]).
  - reflexivity.
  - vm_compute; reflexivity.
Defined.

(** C6, counterexample: for a 20000 x 20000 first source not even one
    frame plus the two-frame overhead fits in 1 GiB, yet the limit is 1. *)
Lemma concurrency_limit_exceeds_budget :
  exists L, max_concurrent_videos 20000 20000 = Some L /\
            ~ ((L + 2) * (20000 * 20000 * 3) <= MAX_MEMORY_BYTES).
Proof.
  exists 1; split; [vm_compute; reflexivity|].
  unfold MAX_MEMORY_BYTES; lia.
Qed.

(** ** Output format *)

Lemma create_configs resize codec env srcs r first rest :
  probe_videos srcs = first :: rest ->
  create_lighten_blend_video resize codec env srcs = Some r ->
  forall pr cfg, In pr (vr_passes r) -> pr_config pr = Some cfg ->
  cfg = (s_width first, s_height first, normalize_fps (s_fps first)).
Proof.
  intros Hprobe Hcreate pr cfg Hin Hcfg.
  destruct (create_passes resize codec env srcs r first rest Hprobe Hcreate) as [_ Hall].
  destruct (Hall pr Hin) as (xs & _ & ->).
  destruct (streaming_pass_config resize env xs (s_width first) (s_height first)
              (normalize_fps (s_fps first)) (max_frame_count (first :: rest))) as [E|E];
    rewrite E in Hcfg; [discriminate|].
  apply some_inj in Hcfg; auto.
Qed.

(** C9: in every request with a readable source, every encoder that is
    spawned is configured with the width and height of the first
    readable source and the (normalized) frame rate of that same source;
    nothing of the other sources enters the output format. *)
Theorem output_format_from_first resize codec env srcs r first rest :
  probe_videos srcs = first :: rest ->
  create_lighten_blend_video resize codec env srcs = Some r ->
  forall pr cfg, In pr (vr_passes r) -> pr_config pr = Some cfg ->
  cfg = (s_width first, s_height first, normalize_fps (s_fps first)).
Proof. apply create_configs. Qed.

Lemma output_format_from_first_witness :
  (1, 1, Qmake 30 1) = (s_width demo_a, s_height demo_a, normalize_fps (s_fps demo_a)).
Proof.
  refine (output_format_from_first nearest_resize (fun f => f) demo_env [demo_a; demo_b]
            (streaming_request nearest_resize (fun f => f) demo_env [demo_a; demo_b]
               1 1 (Qmake 30 1) 3)
            demo_a [demo_b] _ _
            (streaming_pass nearest_resize demo_env [demo_a; demo_b] 1 1 (Qmake 30 1) 3)
            _ _ _).
  - reflexivity.
  - vm_compute; reflexivity.
  - left; reflexivity.
  - vm_compute; reflexivity.
Defined.

(** C7: the frame rate every spawned encoder is given is the first
    readable source's frame rate after normalization, and the
    normalization replaces a rate [<= 0] or [> 120] by 30 and keeps a
    rate in [(0, 120]] unchanged. *)
Theorem fps_normalized resize codec env srcs r first rest :
  probe_videos srcs = first :: rest ->
  create_lighten_blend_video resize codec env srcs = Some r ->
  (forall pr w h fps, In pr (vr_passes r) -> pr_config pr = Some (w, h, fps) ->
                      fps = normalize_fps (s_fps first)) /\
  (forall q, (q <= 0 \/ 120 < q)%Q -> normalize_fps q = Qmake 30 1) /\
  (forall q, (0 < q <= 120)%Q -> normalize_fps q = q).
Proof.
  intros Hprobe Hcreate; split; [|split].
  - intros pr w h fps Hin Hcfg.
    pose proof (create_configs resize codec env srcs r first rest Hprobe Hcreate pr _ Hin Hcfg)
      as E.
    injection E as _ _ ->; reflexivity.
  - intros q [Hq|Hq]; unfold normalize_fps.
    + apply Qle_bool_iff in Hq; rewrite Hq; reflexivity.
    + destruct (Qle_bool q 0); [reflexivity|].
      destruct (Qle_bool q 120) eqn:E; [|reflexivity].
      apply Qle_bool_iff in E; exfalso; apply (Qlt_not_le _ _ Hq E).
  - intros q [Hq0 Hq120]; unfold normalize_fps.
    destruct (Qle_bool q 0) eqn:E.
    + apply Qle_bool_iff in E; exfalso; apply (Qlt_not_le _ _ Hq0 E).
    + apply Qle_bool_iff in Hq120; rewrite Hq120; reflexivity.
Qed.

Lemma fps_normalized_witness :
  Qmake 30 1 = normalize_fps (s_fps demo_a) /\
  normalize_fps (Qmake 240 1) = Qmake 30 1 /\
  normalize_fps (Qmake 24 1) = Qmake 24 1.
Proof.
  destruct (fps_normalized nearest_resize (fun f => f) demo_env [demo_a; demo_b]
              (streaming_request nearest_resize (fun f => f) demo_env [demo_a; demo_b]
                 1 1 (Qmake 30 1) 3)
              demo_a [demo_b]) as (Hfps & Hout & Hin).
  - reflexivity.
  - vm_compute; reflexivity.
  - split; [|split].
    + apply (Hfps (streaming_pass nearest_resize demo_env [demo_a; demo_b] 1 1 (Qmake 30 1) 3)
               1 1); [left; reflexivity|vm_compute; reflexivity].
    + apply Hout; right; unfold Qlt; simpl; lia.
    + apply Hin; unfold Qlt, Qle; simpl; lia.
Defined.

(** ** Still-image compositor *)

Lemma fold_fit_map resize w h (fs : list frame) c :
  fold_left (fun c f => np_maximum c (fit resize w h f)) fs c =
  fold_left np_maximum (map (fit resize w h) fs) c.
Proof. revert c; induction fs as [|f fs IH]; intros c; simpl; auto. Qed.

Lemma process_files_fold decode resize w h files c :
  fold_left (process_file decode resize w h) files c =
  fold_left np_maximum (flat_map (fun p => map (fit resize w h) (file_frames decode p)) files) c.
Proof.
  revert c; induction files as [|p files IH]; intros c; simpl; auto.
  rewrite fold_left_app, IH; unfold process_file; rewrite fold_fit_map; reflexivity.
Qed.

Lemma expand_paths_app fsys path_str l1 l2 :
  expand_paths fsys path_str (l1 ++ l2) = expand_paths fsys path_str l1 ++ expand_paths fsys path_str l2.
Proof. unfold expand_paths; apply flat_map_app. Qed.

Lemma expand_paths_nil fsys path_str : expand_paths fsys path_str [] = [].
Proof. reflexivity. Qed.

Lemma image_result_eq fsys path_str decode resize imw paths :
  create_lighten_blend_image fsys path_str decode resize imw paths =
  match expand_paths fsys path_str paths with
  | [] => (false, None)
  | first :: rest =>
    match first_frame_of decode first with
    | None => (false, None)
    | Some ff =>
      match imw with
      | None => (false, None)
      | Some b =>
        (true, if b then Some (clip_frame (image_composite decode resize (fwidth ff) (fheight ff)
                                              (first :: rest)))
               else None)
      end
    end
  end.
Proof.
  unfold create_lighten_blend_image.
  destruct paths as [|p paths]; [reflexivity|].
  cbv beta iota.
  destruct (expand_paths fsys path_str (p :: paths)) as [|first rest]; [reflexivity|].
  destruct (first_frame_of decode first) as [ff|]; [|reflexivity].
  cbv zeta; unfold image_composite; rewrite process_files_fold.
  destruct imw as [[|]|]; reflexivity.
Qed.

Lemma image_composite_readable decode resize w h files :
  image_composite decode resize w h
    (filter (fun p => negb (match file_frames decode p with [] => true | _ :: _ => false end))
       files) =
  image_composite decode resize w h files.
Proof.
  unfold image_composite; f_equal.
  induction files as [|p files IH]; [reflexivity|].
  cbn [filter]; destruct (file_frames decode p) as [|f fs] eqn:E; cbn [negb flat_map].
  - rewrite E; exact IH.
  - rewrite IH; reflexivity.
Qed.

(** C4 (amended): when [cv2.imwrite] writes the image or raises, the
    still-image compositor returns [False] exactly when no existing file
    is found, when the FIRST file of the expanded list cannot be read
    (its frame fixes the resolution), or when [cv2.imwrite] raises.
    Otherwise it returns [True], and the image written is the clipped
    composite of the frames of the readable files only, resized to the
    first file's resolution: an unreadable file at any other position is
    skipped. *)
Theorem image_result_cases fsys path_str decode resize imw paths :
  imw <> Some false ->
  (fst (create_lighten_blend_image fsys path_str decode resize imw paths) = false <->
   expand_paths fsys path_str paths = [] \/
   (exists first rest, expand_paths fsys path_str paths = first :: rest /\
                       first_frame_of decode first = None) \/
   imw = None) /\
  (forall first rest ff,
     expand_paths fsys path_str paths = first :: rest ->
     first_frame_of decode first = Some ff ->
     imw = Some true ->
     create_lighten_blend_image fsys path_str decode resize imw paths =
       (true, Some (clip_frame (image_composite decode resize (fwidth ff) (fheight ff)
                     (filter (fun p => negb (match file_frames decode p with
                                             | [] => true | _ :: _ => false end))
                        (first :: rest)))))).
Proof.
  intros Himw; rewrite image_result_eq; split.
  - destruct (expand_paths fsys path_str paths) as [|first rest] eqn:Ee.
    + split; [intros _; left; reflexivity|intros _; reflexivity].
    + destruct (first_frame_of decode first) as [ff|] eqn:Ef.
      * destruct imw as [[|]|]; [|congruence|]; cbn [fst]; split.
        -- intros E; discriminate.
        -- intros [E|[(f' & r' & E & Hf)|E]]; [discriminate| |discriminate].
           injection E as <- <-; congruence.
        -- intros _; right; right; reflexivity.
        -- intros _; reflexivity.
      * split; [intros _; right; left; exists first, rest; auto|intros _; reflexivity].
  - intros first rest ff Ee Ef Hw; rewrite Ee, Ef, Hw; cbv beta iota.
    rewrite image_composite_readable; reflexivity.
Qed.

Lemma image_result_cases_witness :
  Some true <> Some false /\
  (fst (create_lighten_blend_image demo_fsys demo_path_str demo_decode nearest_resize (Some true)
          ["red.png"; "bad.png"; "blue.png"]%string) = false <->
   expand_paths demo_fsys demo_path_str ["red.png"; "bad.png"; "blue.png"]%string = [] \/
   (exists first rest,
      expand_paths demo_fsys demo_path_str ["red.png"; "bad.png"; "blue.png"]%string =
        first :: rest /\
      first_frame_of demo_decode first = None) \/
   Some true = None) /\
  (forall first rest ff,
     expand_paths demo_fsys demo_path_str ["red.png"; "bad.png"; "blue.png"]%string =
       first :: rest ->
     first_frame_of demo_decode first = Some ff ->
     Some true = Some true ->
     create_lighten_blend_image demo_fsys demo_path_str demo_decode nearest_resize (Some true)
       ["red.png"; "bad.png"; "blue.png"]%string =
       (true, Some (clip_frame (image_composite demo_decode nearest_resize (fwidth ff) (fheight ff)
                     (filter (fun p => negb (match file_frames demo_decode p with
                                             | [] => true | _ :: _ => false end))
                        (first :: rest)))))).
Proof.
  assert (H : Some true <> Some false) by discriminate.
  split; [exact H|].
  exact (image_result_cases demo_fsys demo_path_str demo_decode nearest_resize (Some true)
           ["red.png"; "bad.png"; "blue.png"]%string H).
Defined.

(** C4, counterexample: one unreadable image followed by two valid
    images fails when the unreadable one comes first; and when
    [cv2.imwrite] fails without raising (it returns [False], e.g. for a
    directory that cannot be written), the compositor still returns
    [True] although no image is written. *)
Lemma image_result_counterexamples :
  create_lighten_blend_image demo_fsys demo_path_str demo_decode nearest_resize (Some true)
    ["bad.png"; "red.png"; "blue.png"]%string = (false, None) /\
  create_lighten_blend_image demo_fsys demo_path_str demo_decode nearest_resize (Some true)
    ["red.png"; "bad.png"; "blue.png"]%string = (true, Some (demo_px 255 0 255)) /\
  create_lighten_blend_image demo_fsys demo_path_str demo_decode nearest_resize (Some false)
    ["red.png"; "blue.png"]%string = (true, None).
Proof. split; [|split]; vm_compute; reflexivity. Qed.

(** C8: composing the list [[s; s]] gives the same result (return value
    and pixels written) as composing [[s]]. *)
Theorem duplicate_source_idempotent fsys path_str decode resize imw s :
  create_lighten_blend_image fsys path_str decode resize imw [s; s] =
  create_lighten_blend_image fsys path_str decode resize imw [s].
Proof.
  assert (E : expand_paths fsys path_str [s; s] = expand_paths fsys path_str [s] ++ expand_paths fsys path_str [s])
    by (rewrite <- expand_paths_app; reflexivity).
  rewrite !image_result_eq, E.
  destruct (expand_paths fsys path_str [s]) as [|first rest]; [reflexivity|].
  cbn [app]; destruct (first_frame_of decode first) as [ff|]; [|reflexivity].
  destruct imw as [[|]|]; try reflexivity.
  unfold image_composite.
  change (first :: rest ++ first :: rest) with ((first :: rest) ++ (first :: rest)).
  rewrite flat_map_app, fold_left_app, fold_max_twice; reflexivity.
Qed.

Lemma collect_files_filtered fsys path_str d entries f :
  fsys d = NDir entries ->
  In f (collect_files_from_folder fsys path_str d) -> in_exts (file_ext f) all_ext = true.
Proof.
  unfold collect_files_from_folder; intros ->.
  intros Hin; apply filter_In in Hin as [_ Hf]; apply andb_prop in Hf as [_ Hf]; exact Hf.
Qed.

(** C10: a path given directly that names an existing file is kept
    whatever its extension; when that extension is not an image
    extension the file goes through the video branch (opened with
    [cv2.VideoCapture], its first frame read by [get_frame_from_video]),
    even for an extension outside the video set.  Only the files found
    under a given folder are filtered by extension. *)
Theorem direct_files_unfiltered fsys path_str decode p :
  fsys p = NFile ->
  expand_paths fsys path_str [p] = [p] /\
  (in_exts (file_ext p) image_ext = false ->
   file_branch p = BVideo /\
   first_frame_of decode p = get_frame_from_video decode p /\
   file_frames decode p =
     (if m_cap_opened (decode p) then m_cap_frames (decode p) else [])) /\
  (forall d entries f, fsys d = NDir entries -> In f (expand_paths fsys path_str [d]) ->
                       in_exts (file_ext f) all_ext = true).
Proof.
  intros Hp; split; [|split].
  - unfold expand_paths; simpl; rewrite Hp; reflexivity.
  - intros Himg.
    assert (Hb : file_branch p = BVideo)
      by (unfold file_branch; rewrite Himg; reflexivity).
    unfold first_frame_of, file_frames; rewrite Hb; auto.
  - intros d entries f Hd Hin.
    unfold expand_paths in Hin; simpl in Hin; rewrite Hd, app_nil_r in Hin.
    exact (collect_files_filtered fsys path_str d entries f Hd Hin).
Qed.

Lemma direct_files_unfiltered_witness :
  expand_paths demo_fsys demo_path_str ["clip.xyz"%string] = ["clip.xyz"%string] /\
  (file_branch "clip.xyz" = BVideo /\
   first_frame_of demo_decode "clip.xyz" = get_frame_from_video demo_decode "clip.xyz" /\
   file_frames demo_decode "clip.xyz" = [demo_px 0 9 0]) /\
  in_exts (file_ext "shots/a.png") all_ext = true.
Proof.
  destruct (direct_files_unfiltered demo_fsys demo_path_str demo_decode "clip.xyz" eq_refl)
    as (Hexp & Hvid & Hdir).
  split; [exact Hexp|split].
  - exact (Hvid eq_refl).
  - apply (Hdir "shots"%string ["shots/a.png"; "shots/notes.txt"]%string); [reflexivity|].
    vm_compute; left; reflexivity.
Defined.

(** ** Batched against streaming processing *)

Lemma filter_all_opened xs :
  Forall (fun s => s_opened s = true) xs -> filter s_opened xs = xs.
Proof.
  induction 1 as [|s xs Hs _ IH]; simpl; [reflexivity|].
  rewrite Hs, IH; reflexivity.
Qed.

Lemma open_caps_all_opened xs :
  xs <> [] -> Forall (fun s => s_opened s = true) xs -> open_caps xs <> [].
Proof.
  intros Hne Hop; destruct xs as [|s xs]; [contradiction|].
  apply (open_caps_not_nil _ s); [left; reflexivity|].
  apply Forall_inv in Hop; exact Hop.
Qed.

Lemma streaming_pass_max resize env infos w h fps mf :
  open_caps infos <> [] -> encoder_available env -> reads_fit_okb resize w h infos = true ->
  streaming_pass resize env infos w h fps mf =
  mk_pass (exit_code env =? 0) (Some (w, h, fps))
    (delivered env (pass_writes resize w h mf (filter s_opened infos))).
Proof.
  intros Hcaps Henv Hfit.
  rewrite (streaming_pass_spawned resize) by assumption.
  unfold pass_writes; do 2 f_equal; apply map_ext; intros k; f_equal.
  apply merge_from_none, active_frames_wf, reads_fit_okb_filter, Hfit.
Qed.

Lemma run_batches_all_ok resize env batches w h fps mf :
  (forall b, In b batches -> pr_ok (streaming_pass resize env b w h fps mf) = true) ->
  run_batches resize env batches w h fps mf =
  (map (fun b => streaming_pass resize env b w h fps mf) batches, true).
Proof.
  induction batches as [|b batches IH]; intros Hok; [reflexivity|].
  simpl; rewrite (Hok b (or_introl eq_refl)).
  rewrite IH by (intros b' Hb'; apply Hok; right; exact Hb'); reflexivity.
Qed.

Lemma fit_wf resize w h f : wf_frameb w h f = true -> fit resize w h f = f.
Proof.
  intros Hf; apply wf_frameb_iff in Hf as (Hw & Hh & _).
  unfold fit; rewrite Hw, Hh, !Z.eqb_refl; reflexivity.
Qed.

Lemma nth_error_seq_lt s n k : (k < n)%nat -> nth_error (seq s n) k = Some (s + k)%nat.
Proof.
  revert s k; induction n as [|n IH]; intros s k Hk; [lia|].
  destruct k as [|k]; simpl; [f_equal; lia|].
  rewrite IH by lia; f_equal; lia.
Qed.

Lemma pass_writes_length resize w h mf b :
  List.length (pass_writes resize w h mf b) = Z.to_nat mf.
Proof. unfold pass_writes; rewrite length_map, length_seq; reflexivity. Qed.

Lemma pass_writes_ext resize w h mf A A' :
  (forall k, (k < Z.to_nat mf)%nat ->
     fold_left np_maximum (active_frames resize w h A (Z.of_nat k)) (black w h) =
     fold_left np_maximum (active_frames resize w h A' (Z.of_nat k)) (black w h)) ->
  pass_writes resize w h mf A = pass_writes resize w h mf A'.
Proof.
  intros H; unfold pass_writes; apply map_ext_in; intros k Hk.
  apply in_seq in Hk; f_equal; apply H; lia.
Qed.

Lemma active_frames_concat resize w h (B : list (list source)) i :
  active_frames resize w h (List.concat B) i =
  flat_map (fun b => active_frames resize w h b i) B.
Proof.
  induction B as [|b B IH]; [reflexivity|].
  cbn [List.concat flat_map]; rewrite <- IH; unfold active_frames; apply flat_map_app.
Qed.

Lemma fold_max_concat {A : Type} w h (F : A -> list frame) (B : list A) a :
  wf_frameb w h a = true ->
  (forall b, In b B -> Forall (fun f => wf_frameb w h f = true) (F b)) ->
  fold_left np_maximum (map (fun b => fold_left np_maximum (F b) (black w h)) B) a =
  fold_left np_maximum (flat_map F B) a.
Proof.
  revert a; induction B as [|b B IH]; intros a Ha HF; [reflexivity|].
  cbn [map flat_map fold_left]; rewrite fold_max_app.
  rewrite (fold_max_from w h (F b) a Ha).
  apply IH; [|intros b' Hb'; apply HF; right; exact Hb'].
  apply np_maximum_wf; [exact Ha|].
  apply fold_max_wf; [apply black_wf|apply HF; left; reflexivity].
Qed.

Section Intermediates.

Variable resize : Z -> Z -> frame -> frame.
Variable codec : frame -> frame.
Variables (w h mf : Z) (fps : Q).
(** The encoder gives back every well-formed [w x h] frame unchanged. *)
Hypothesis Hcodec : forall f, wf_frameb w h f = true -> codec f = f.

Let inter (b : list source) : source :=
  intermediate_source codec (mk_pass true (Some (w, h, fps)) (pass_writes resize w h mf b)) w h fps.

Lemma batch_frame_wf b k :
  reads_fit_okb resize w h b = true ->
  wf_frameb w h (fold_left np_maximum (active_frames resize w h b k) (black w h)) = true.
Proof.
  intros Hfit; apply fold_max_wf; [apply black_wf|apply active_frames_wf, Hfit].
Qed.

Lemma intermediate_read b k :
  reads_fit_okb resize w h b = true -> (k < Z.to_nat mf)%nat ->
  read_at (inter b) (Z.of_nat k) =
  Some (fold_left np_maximum (active_frames resize w h b (Z.of_nat k)) (black w h)).
Proof.
  intros Hfit Hk; unfold read_at, inter, intermediate_source, pass_writes; cbn [s_reads].
  cbn [pr_writes]; rewrite Nat2Z.id, !nth_error_map, nth_error_seq_lt by exact Hk; cbn.
  rewrite Hcodec by (apply batch_frame_wf, Hfit); reflexivity.
Qed.

Lemma intermediates_active B k :
  (forall b, In b B -> reads_fit_okb resize w h b = true) -> (k < Z.to_nat mf)%nat ->
  active_frames resize w h (map inter B) (Z.of_nat k) =
  map (fun b => fold_left np_maximum (active_frames resize w h b (Z.of_nat k)) (black w h)) B.
Proof.
  intros Hfit Hk; induction B as [|b B IH]; [reflexivity|].
  assert (Hlt : (Z.of_nat k <? s_frame_count (inter b)) = true).
  { unfold inter, intermediate_source; cbn [s_frame_count pr_writes].
    rewrite pass_writes_length; apply Z.ltb_lt; lia. }
  unfold active_frames in IH |- *; cbn [map flat_map].
  rewrite IH by (intros b' Hb'; apply Hfit; right; exact Hb').
  rewrite Hlt, intermediate_read by (auto; apply Hfit; left; reflexivity).
  rewrite fit_wf by (apply batch_frame_wf, Hfit; left; reflexivity).
  reflexivity.
Qed.

Lemma intermediates_fit B :
  (forall b, In b B -> reads_fit_okb resize w h b = true) ->
  reads_fit_okb resize w h (map inter B) = true.
Proof.
  intros Hfit; unfold reads_fit_okb; apply forallb_forall; intros s Hs.
  apply in_map_iff in Hs as (b & <- & Hb).
  apply forallb_forall; intros r Hr.
  unfold inter, intermediate_source in Hr; cbn [s_reads] in Hr.
  apply in_map_iff in Hr as ([i fr] & <- & Hir).
  unfold pass_writes in Hir; apply in_map_iff in Hir as (k & Hk & _).
  injection Hk as _ <-; cbn [snd].
  rewrite Hcodec by (apply batch_frame_wf, Hfit, Hb).
  rewrite fit_wf by (apply batch_frame_wf, Hfit, Hb).
  apply batch_frame_wf, Hfit, Hb.
Qed.

Lemma final_pass_eq env B :
  encoder_available env -> B <> [] ->
  (forall b, In b B -> reads_fit_okb resize w h b = true) ->
  streaming_pass resize env
    (map (fun pr => intermediate_source codec pr w h fps)
       (map (fun b => mk_pass true (Some (w, h, fps)) (pass_writes resize w h mf b)) B))
    w h fps mf =
  mk_pass (exit_code env =? 0) (Some (w, h, fps))
    (delivered env (pass_writes resize w h mf (List.concat B))).
Proof.
  intros Henv HB Hfit; rewrite map_map; fold inter.
  assert (Hop : Forall (fun s => s_opened s = true) (map inter B)).
  { apply Forall_forall; intros s Hs; apply in_map_iff in Hs as (b & <- & _); reflexivity. }
  rewrite streaming_pass_max; [|apply open_caps_all_opened; [destruct B; simpl; congruence|exact Hop]
                               |exact Henv|apply intermediates_fit, Hfit].
  rewrite filter_all_opened by exact Hop.
  do 2 f_equal; apply pass_writes_ext; intros k Hk.
  rewrite intermediates_active by assumption.
  rewrite active_frames_concat.
  apply (fold_max_concat w h (fun b => active_frames resize w h b (Z.of_nat k))).
  - apply black_wf.
  - intros b Hb; apply active_frames_wf, Hfit, Hb.
Qed.

End Intermediates.

(** C3 (amended): when the encoder gives back every well-formed frame
    unchanged (a lossless round trip), batched processing of a list of
    open sources, for any batch size [bs >= 1], returns the same success
    value and leaves the same decoded output frames as unbatched
    streaming processing of the same list, provided every encoder exits
    with status 0.  With the lossy [libx264 yuv420p] round trip the
    source uses, batching encodes every composite twice and the two
    outputs can differ (see [batched_differs_lossy]). *)
Theorem batched_equals_streaming_lossless resize codec env infos w h fps mf bs :
  1 <= bs -> infos <> [] -> Forall (fun s => s_opened s = true) infos ->
  encoder_available env -> exit_code env = 0 ->
  reads_fit_okb resize w h infos = true ->
  (forall f, wf_frameb w h f = true -> codec f = f) ->
  vr_ok (batched_pass resize codec env infos w h fps mf bs) =
  vr_ok (streaming_request resize codec env infos w h fps mf) /\
  vr_output (batched_pass resize codec env infos w h fps mf bs) =
  vr_output (streaming_request resize codec env infos w h fps mf).
Proof.
  intros Hbs Hne Hop Henv Hexit Hfit Hcodec.
  unfold batched_pass, streaming_request.
  pose proof (batch_slices_concat infos bs Hbs) as HB.
  pose proof (batch_slices_nonempty infos bs Hbs) as HBne.
  set (B := batch_slices infos bs) in *; clearbody B.
  assert (Hsub : forall b, In b B -> forall s, In s b -> In s infos).
  { intros b Hb s Hs; rewrite <- HB; apply in_concat; eauto. }
  assert (HBop : forall b, In b B -> Forall (fun s => s_opened s = true) b).
  { intros b Hb; rewrite Forall_forall in Hop |- *; eauto. }
  assert (HBfit : forall b, In b B -> reads_fit_okb resize w h b = true).
  { intros b Hb; unfold reads_fit_okb in *; rewrite forallb_forall in *; eauto. }
  assert (Hsp : forall xs, xs <> [] -> Forall (fun s => s_opened s = true) xs ->
                reads_fit_okb resize w h xs = true ->
                streaming_pass resize env xs w h fps mf =
                mk_pass true (Some (w, h, fps)) (pass_writes resize w h mf xs)).
  { intros xs Hxs Hxo Hxf.
    rewrite streaming_pass_max, filter_all_opened, delivered_ok, Hexit
      by auto using open_caps_all_opened.
    reflexivity. }
  assert (HspB : forall b, In b B ->
                 streaming_pass resize env b w h fps mf =
                 mk_pass true (Some (w, h, fps)) (pass_writes resize w h mf b)).
  { intros b Hb; apply Hsp; auto. }
  assert (HBnil : B <> []) by (intros ->; apply Hne; rewrite <- HB; reflexivity).
  rewrite (Hsp infos Hne Hop Hfit).
  rewrite run_batches_all_ok by (intros b Hb; rewrite HspB by exact Hb; reflexivity).
  rewrite (map_ext_in (fun b => streaming_pass resize env b w h fps mf)
             (fun b => mk_pass true (Some (w, h, fps)) (pass_writes resize w h mf b)) B HspB).
  rewrite (final_pass_eq resize codec w h mf fps Hcodec env B Henv HBnil HBfit), HB.
  rewrite delivered_ok, Hexit by exact Hexit.
  destruct B as [|b1 [|b2 B]]; [contradiction| |]; cbn; [|split; reflexivity].
  cbn in HB; rewrite app_nil_r in HB; subst b1; split; reflexivity.
Qed.

Lemma batched_equals_streaming_lossless_witness :
  vr_ok (batched_pass nearest_resize (fun f => f) demo_env [demo_red_corner; demo_black]
           2 2 (Qmake 30 1) 1 1) =
  vr_ok (streaming_request nearest_resize (fun f => f) demo_env [demo_red_corner; demo_black]
           2 2 (Qmake 30 1) 1) /\
  vr_output (batched_pass nearest_resize (fun f => f) demo_env [demo_red_corner; demo_black]
               2 2 (Qmake 30 1) 1 1) =
  vr_output (streaming_request nearest_resize (fun f => f) demo_env [demo_red_corner; demo_black]
               2 2 (Qmake 30 1) 1).
Proof.
  apply batched_equals_streaming_lossless.
  - lia.
  - discriminate.
  - repeat constructor.
  - split; [discriminate|reflexivity].
  - reflexivity.
  - vm_compute; reflexivity.
  - intros f _; reflexivity.
Defined.

(** C3, counterexample: with the 4:2:0 chroma subsampling of the encoder
    modelled by [yuv420_roundtrip], two one-frame 2 x 2 videos merged in
    batches of one give a different output frame than merged in one
    streaming pass. *)
Lemma batched_differs_lossy :
  vr_output (batched_pass nearest_resize yuv420_roundtrip demo_env
               [demo_red_corner; demo_black] 2 2 (Qmake 30 1) 1 1) =
  Some [mk_frame 2 2 [(51, 50, 102); (0, 0, 51); (0, 0, 51); (0, 0, 51)]] /\
  vr_output (streaming_request nearest_resize yuv420_roundtrip demo_env
               [demo_red_corner; demo_black] 2 2 (Qmake 30 1) 1) =
  Some [mk_frame 2 2 [(48, 47, 111); (0, 0, 48); (0, 0, 48); (0, 0, 48)]].
Proof. split; vm_compute; reflexivity. Qed.

(** * Further properties of the code *)

(** ** Order of the merged frames *)

Lemma fold_max_perm L L' a :
  Permutation L L' -> fold_left np_maximum L a = fold_left np_maximum L' a.
Proof.
  intros HP; revert a; induction HP as [|x l l' _ IH|x y l|l l' l'' _ IH1 _ IH2];
    intros a; simpl; auto.
  - rewrite np_maximum_rcomm; reflexivity.
  - rewrite IH1; apply IH2.
Qed.

Lemma Permutation_filter_same {A} (f : A -> bool) l l' :
  Permutation l l' -> Permutation (filter f l) (filter f l').
Proof.
  induction 1 as [|x l l' _ IH|x y l|l l' l'' _ IH1 _ IH2]; simpl; auto.
  - destruct (f x); auto.
  - destruct (f x), (f y); auto using perm_swap.
  - eapply perm_trans; eauto.
Qed.

Lemma reads_fit_okb_perm resize w h infos infos' :
  Permutation infos infos' -> reads_fit_okb resize w h infos = true ->
  reads_fit_okb resize w h infos' = true.
Proof.
  unfold reads_fit_okb; rewrite !forallb_forall; intros HP H s Hs.
  apply H; eapply Permutation_in; [symmetry; exact HP|exact Hs].
Qed.

Lemma streaming_pass_shape resize env infos w h fps mf :
  reads_fit_okb resize w h infos = true ->
  streaming_pass resize env infos w h fps mf = mk_pass false None [] \/
  (open_caps infos <> [] /\ encoder_available env /\
   streaming_pass resize env infos w h fps mf =
   mk_pass (exit_code env =? 0) (Some (w, h, fps))
     (delivered env (pass_writes resize w h mf (filter s_opened infos)))).
Proof.
  intros Hfit.
  destruct (open_caps infos) as [|c cs] eqn:Ecaps.
  - left; unfold streaming_pass; rewrite Ecaps; reflexivity.
  - destruct (ffmpeg_path env) as [path|] eqn:Ep;
      [|left; apply streaming_pass_no_encoder; left; exact Ep].
    destruct (spawn_ok env) eqn:Es;
      [|left; apply streaming_pass_no_encoder; right; exact Es].
    assert (Henv : encoder_available env) by (split; congruence).
    right; split; [congruence|split; [exact Henv|]].
    apply streaming_pass_max; [congruence|exact Henv|exact Hfit].
Qed.

Lemma clip_wf w h f : wf_frameb w h f = true -> clip_frame f = f.
Proof.
  intros Hf; apply wf_frameb_iff in Hf as (_ & _ & _ & Hpx).
  destruct f as [fw fh px]; unfold clip_frame; cbn in *; f_equal.
  induction px as [|[[b g] r] px IH]; [reflexivity|].
  cbn in Hpx; apply andb_prop in Hpx as [Hp Hpx].
  unfold pixel_okb in Hp; repeat rewrite andb_true_iff in Hp.
  repeat match goal with
         | H : _ /\ _ |- _ => destruct H
         | H : (_ <=? _) = true |- _ => apply Z.leb_le in H
         end.
  cbn; rewrite IH by exact Hpx; unfold clamp255.
  assert (E : forall z, 0 <= z <= 255 -> Z.max 0 (Z.min 255 z) = z) by lia.
  rewrite !E by lia; reflexivity.
Qed.

(** X1: when every frame a source returns is, once resized, a
    [w x h] [uint8] frame, every frame a streaming pass writes to the
    encoder is a [w x h] [uint8] frame. *)
Theorem streaming_writes_wf resize env infos w h fps mf :
  reads_fit_okb resize w h infos = true ->
  Forall (fun wf => wf_frameb w h (snd wf) = true)
    (pr_writes (streaming_pass resize env infos w h fps mf)).
Proof.
  intros Hfit.
  destruct (streaming_pass_shape resize env infos w h fps mf Hfit) as [->|(_ & _ & ->)];
    [constructor|].
  cbn [pr_writes]; apply Forall_forall; intros x Hx.
  apply delivered_incl in Hx; unfold pass_writes in Hx.
  apply in_map_iff in Hx as (k & <- & _); cbn [snd].
  apply fold_max_wf; [apply black_wf|apply active_frames_wf, reads_fit_okb_filter, Hfit].
Qed.

Lemma streaming_writes_wf_witness :
  Forall (fun wf => wf_frameb 1 1 (snd wf) = true)
    (pr_writes (streaming_pass nearest_resize demo_env [demo_a; demo_b] 1 1 (Qmake 30 1) 3)).
Proof. apply streaming_writes_wf; vm_compute; reflexivity. Defined.

(** X2: the order of the sources given to a streaming pass does not
    matter: any permutation of them yields the same pass (success, encoder
    settings and every frame written). *)
Theorem streaming_pass_order_irrelevant resize env infos infos' w h fps mf :
  Permutation infos infos' -> reads_fit_okb resize w h infos = true ->
  streaming_pass resize env infos w h fps mf = streaming_pass resize env infos' w h fps mf.
Proof.
  intros HP Hfit.
  pose proof (reads_fit_okb_perm resize w h infos infos' HP Hfit) as Hfit'.
  pose proof (Permutation_filter_same s_opened infos infos' HP) as HPf.
  assert (Hcaps : open_caps infos = [] <-> open_caps infos' = []).
  { unfold open_caps; split; intros H; apply map_eq_nil in H; rewrite H in HPf.
    - apply Permutation_nil in HPf; rewrite HPf; reflexivity.
    - symmetry in HPf; apply Permutation_nil in HPf; rewrite HPf; reflexivity. }
  destruct (streaming_pass_shape resize env infos w h fps mf Hfit) as [E|(Hc & He & E)];
  destruct (streaming_pass_shape resize env infos' w h fps mf Hfit') as [E'|(Hc' & He' & E')];
    rewrite E, E'; auto.
  - exfalso; unfold streaming_pass in E.
    destruct (open_caps infos) eqn:Ec; [tauto|].
    destruct He' as [Hp Hs]; destruct (ffmpeg_path env); [|congruence].
    rewrite Hs in E; discriminate.
  - exfalso; unfold streaming_pass in E'.
    destruct (open_caps infos') eqn:Ec; [tauto|].
    destruct He as [Hp Hs]; destruct (ffmpeg_path env); [|congruence].
    rewrite Hs in E'; discriminate.
  - do 2 f_equal; apply pass_writes_ext; intros k _.
    apply fold_max_perm; unfold active_frames; apply Permutation_flat_map, HPf.
Qed.

Lemma streaming_pass_order_irrelevant_witness :
  streaming_pass nearest_resize demo_env [demo_a; demo_b] 1 1 (Qmake 30 1) 3 =
  streaming_pass nearest_resize demo_env [demo_b; demo_a] 1 1 (Qmake 30 1) 3.
Proof.
  apply streaming_pass_order_irrelevant; [apply perm_swap|vm_compute; reflexivity].
Defined.

(** X3: with an encoder that is available and exits with status 0, a
    streaming pass over a single open video writes, at each index,
    that video's frame resized to the output size, and a black frame at
    the indices past its frame count or where its read fails. *)
Theorem streaming_single_source resize env s w h fps mf :
  s_opened s = true -> encoder_available env -> exit_code env = 0 ->
  reads_fit_okb resize w h [s] = true ->
  pr_writes (streaming_pass resize env [s] w h fps mf) =
  map (fun k => (Z.of_nat k,
                 if Z.of_nat k <? s_frame_count s then
                   match read_at s (Z.of_nat k) with
                   | Some f => fit resize w h f
                   | None => black w h
                   end
                 else black w h))
      (seq 0 (Z.to_nat mf)).
Proof.
  intros Hop Henv Hexit Hfit.
  rewrite streaming_pass_max; [|apply (open_caps_not_nil _ s); [left|]; auto|exact Henv|exact Hfit].
  cbn [pr_writes filter]; rewrite delivered_ok by exact Hexit; rewrite Hop.
  unfold pass_writes; apply map_ext; intros k; f_equal.
  pose proof (active_frames_wf resize w h [s] (Z.of_nat k) Hfit) as Hwf.
  unfold active_frames in *; cbn [flat_map] in *; rewrite app_nil_r in *.
  destruct (Z.of_nat k <? s_frame_count s); [|reflexivity].
  destruct (read_at s (Z.of_nat k)) as [f|]; [|reflexivity].
  apply Forall_inv in Hwf; cbn; apply black_np_maximum, Hwf.
Qed.

Lemma streaming_single_source_witness :
  pr_writes (streaming_pass nearest_resize demo_env [demo_b] 1 1 (Qmake 30 1) 3) =
  map (fun k => (Z.of_nat k,
                 if Z.of_nat k <? s_frame_count demo_b then
                   match read_at demo_b (Z.of_nat k) with
                   | Some f => fit nearest_resize 1 1 f
                   | None => black 1 1
                   end
                 else black 1 1))
      (seq 0 (Z.to_nat 3)).
Proof.
  apply streaming_single_source; [reflexivity|split; [discriminate|reflexivity]|reflexivity|].
  vm_compute; reflexivity.
Defined.

Lemma image_composite_fits decode resize w h files :
  files_fit_okb decode resize w h files = true ->
  wf_frameb w h (image_composite decode resize w h files) = true.
Proof.
  intros Hfit; unfold image_composite; apply fold_max_wf; [apply black_wf|].
  apply Forall_forall; intros f Hf; apply in_flat_map in Hf as (p & Hp & Hf).
  apply in_map_iff in Hf as (g & <- & Hg).
  unfold files_fit_okb in Hfit; rewrite forallb_forall in Hfit.
  specialize (Hfit p Hp); rewrite forallb_forall in Hfit; apply Hfit, Hg.
Qed.

(** X4: when every frame of every file, once resized to the first
    file's size, is a [uint8] frame, [np.clip] leaves the [float32]
    composite unchanged: the image written is the per-channel maximum
    itself. *)
Theorem image_clip_is_noop fsys path_str decode resize imw paths first rest ff :
  expand_paths fsys path_str paths = first :: rest ->
  first_frame_of decode first = Some ff ->
  files_fit_okb decode resize (fwidth ff) (fheight ff) (first :: rest) = true ->
  create_lighten_blend_image fsys path_str decode resize imw paths =
  match imw with
  | None => (false, None)
  | Some b =>
    (true, if b then Some (image_composite decode resize (fwidth ff) (fheight ff) (first :: rest))
           else None)
  end.
Proof.
  intros Hexp Hfirst Hfit; rewrite image_result_eq, Hexp, Hfirst.
  destruct imw as [[|]|]; try reflexivity.
  rewrite (clip_wf (fwidth ff) (fheight ff)) by (apply image_composite_fits, Hfit).
  reflexivity.
Qed.

Lemma image_clip_is_noop_witness :
  create_lighten_blend_image demo_fsys demo_path_str demo_decode nearest_resize (Some true)
    ["red.png"; "blue.png"]%string =
  (true, Some (image_composite demo_decode nearest_resize 1 1 ["red.png"; "blue.png"]%string)).
Proof.
  apply (image_clip_is_noop demo_fsys demo_path_str demo_decode nearest_resize (Some true)
           ["red.png"; "blue.png"]%string "red.png"%string ["blue.png"%string]
           (demo_px 0 0 255)); vm_compute; reflexivity.
Defined.

(** X5: compositing a single readable image file writes that image
    back unchanged. *)
Theorem image_single_file fsys path_str decode resize p f :
  fsys p = NFile -> in_exts (file_ext p) image_ext = true ->
  m_imread (decode p) = Some f -> wf_frameb (fwidth f) (fheight f) f = true ->
  create_lighten_blend_image fsys path_str decode resize (Some true) [p] = (true, Some f).
Proof.
  intros Hp Himg Hread Hwf.
  assert (Hb : file_branch p = BImage) by (unfold file_branch; rewrite Himg; reflexivity).
  rewrite image_result_eq.
  replace (expand_paths fsys path_str [p]) with [p] by (unfold expand_paths; simpl; rewrite Hp; reflexivity).
  unfold first_frame_of; rewrite Hb, Hread.
  unfold image_composite; cbn [flat_map]; unfold file_frames; rewrite Hb, Hread.
  cbn [map app fold_left].
  rewrite fit_wf, black_np_maximum, (clip_wf (fwidth f) (fheight f)) by exact Hwf.
  reflexivity.
Qed.

Lemma image_single_file_witness :
  create_lighten_blend_image demo_fsys demo_path_str demo_decode nearest_resize (Some true)
    ["red.png"%string] = (true, Some (demo_px 0 0 255)).
Proof. apply image_single_file; vm_compute; reflexivity. Defined.

(** X6: the still-image result does not depend on the order of the
    inputs after the first one (the first one fixes the resolution). *)
Theorem image_order_after_first fsys path_str decode resize imw p ps ps' :
  Permutation ps ps' -> expand_paths fsys path_str [p] <> [] ->
  create_lighten_blend_image fsys path_str decode resize imw (p :: ps) =
  create_lighten_blend_image fsys path_str decode resize imw (p :: ps').
Proof.
  intros HP Hp; rewrite !image_result_eq.
  change (p :: ps) with ([p] ++ ps); change (p :: ps') with ([p] ++ ps').
  rewrite !expand_paths_app.
  destruct (expand_paths fsys path_str [p]) as [|q qs]; [contradiction|]; cbn [app].
  destruct (first_frame_of decode q) as [ff|]; [|reflexivity].
  destruct imw as [[|]|]; try reflexivity.
  unfold image_composite; do 3 f_equal.
  apply fold_max_perm, Permutation_flat_map.
  change (q :: qs ++ expand_paths fsys path_str ps) with ((q :: qs) ++ expand_paths fsys path_str ps).
  change (q :: qs ++ expand_paths fsys path_str ps') with ((q :: qs) ++ expand_paths fsys path_str ps').
  apply Permutation_app_head; unfold expand_paths; apply Permutation_flat_map, HP.
Qed.

Lemma image_order_after_first_witness :
  create_lighten_blend_image demo_fsys demo_path_str demo_decode nearest_resize (Some true)
    ["red.png"; "bad.png"; "blue.png"]%string =
  create_lighten_blend_image demo_fsys demo_path_str demo_decode nearest_resize (Some true)
    ["red.png"; "blue.png"; "bad.png"]%string.
Proof. apply image_order_after_first; [apply perm_swap|discriminate]. Defined.

(** ** [extract_frames_from_video] *)

Lemma extract_loop_unlimited step mf idx acc rest :
  step <> 0 -> (forall n, max_frames_reached mf n = false) ->
  extract_loop step mf idx acc rest = Some (acc ++ sample_from step idx rest).
Proof.
  intros Hstep Hmf; revert idx acc; induction rest as [|f rest IH]; intros idx acc.
  - cbn; rewrite Hmf, app_nil_r; reflexivity.
  - cbn [extract_loop sample_from]; rewrite Hmf.
    destruct (Z.eqb_spec step 0) as [|_]; [contradiction|].
    rewrite IH; destruct (idx mod step =? 0); cbn; rewrite <- ?app_assoc; reflexivity.
Qed.

Lemma extract_loop_limited step m idx acc rest :
  step <> 0 -> m <> 0 -> (List.length acc <= Z.to_nat m)%nat -> (m < 0 -> acc = []) ->
  extract_loop step (Some m) idx acc rest =
  Some (firstn (Z.to_nat m) (acc ++ sample_from step idx rest)).
Proof.
  intros Hstep Hm; revert idx acc; induction rest as [|f rest IH]; intros idx acc Hlen Hneg;
    cbn [extract_loop max_frames_reached sample_from];
    destruct (Z.eqb_spec m 0) as [|_]; try contradiction; cbn [negb andb].
  - destruct (Z.leb_spec m (Z.of_nat (List.length acc))); rewrite app_nil_r, firstn_all2 by lia;
      reflexivity.
  - destruct (Z.leb_spec m (Z.of_nat (List.length acc))) as [Hle|Hgt].
    + destruct (Z_lt_le_dec m 0) as [Hlt|Hge].
      * rewrite (Hneg Hlt); replace (Z.to_nat m) with 0%nat by lia; reflexivity.
      * assert (E : List.length acc = Z.to_nat m) by lia.
        rewrite firstn_app, E, Nat.sub_diag, <- E, firstn_all; cbn; rewrite app_nil_r.
        reflexivity.
    + destruct (Z.eqb_spec step 0) as [|_]; [contradiction|].
      rewrite IH.
      * destruct (idx mod step =? 0); cbn; rewrite <- ?app_assoc; reflexivity.
      * destruct (idx mod step =? 0); rewrite ?length_app; cbn; lia.
      * intros; lia.
Qed.

Lemma extract_frames_eq decode p step max_frames :
  step <> 0 ->
  extract_frames_from_video decode p step max_frames =
  Some (if m_cap_opened (decode p) then
          let frames := sample_from step 0 (m_cap_frames (decode p)) in
          match max_frames with
          | Some m => if m =? 0 then frames else firstn (Z.to_nat m) frames
          | None => frames
          end
        else []).
Proof.
  intros Hstep; unfold extract_frames_from_video.
  destruct (m_cap_opened (decode p)); [|reflexivity]; cbv zeta.
  destruct max_frames as [m|].
  - destruct (Z.eqb_spec m 0) as [->|Hm].
    + apply extract_loop_unlimited; [exact Hstep|reflexivity].
    + apply extract_loop_limited; auto; cbn; lia.
  - apply extract_loop_unlimited; [exact Hstep|reflexivity].
Qed.

(** X7: for a non-zero [step], [extract_frames_from_video] returns every
    [step]-th frame of the video (indices divisible by [step]), cut to the
    first [max_frames] of them when [max_frames] is a non-zero number
    (none at all when it is negative); [None] and [0] mean no limit.  A
    video that does not open gives the empty list. *)
Theorem extract_frames_sampled decode p step max_frames :
  step <> 0 ->
  extract_frames_from_video decode p step max_frames =
  Some (if m_cap_opened (decode p) then
          let frames := sample_from step 0 (m_cap_frames (decode p)) in
          match max_frames with
          | Some m => if m =? 0 then frames else firstn (Z.to_nat m) frames
          | None => frames
          end
        else []).
Proof. exact (extract_frames_eq decode p step max_frames). Qed.

Lemma extract_frames_sampled_witness :
  extract_frames_from_video demo_decode "clip.xyz" 2 (Some 5) =
  Some (if m_cap_opened (demo_decode "clip.xyz") then
          let frames := sample_from 2 0 (m_cap_frames (demo_decode "clip.xyz")) in
          match Some 5 with
          | Some m => if m =? 0 then frames else firstn (Z.to_nat m) frames
          | None => frames
          end
        else []).
Proof. apply extract_frames_sampled; discriminate. Defined.

(** X8: with [step = 0], [extract_frames_from_video] raises
    [ZeroDivisionError] as soon as it reads a frame: exactly when the
    video opens, has a frame, and [max_frames] is not negative; otherwise
    it returns the empty list. *)
Theorem extract_frames_zero_step decode p max_frames :
  extract_frames_from_video decode p 0 max_frames =
  if m_cap_opened (decode p) && negb (match m_cap_frames (decode p) with [] => true | _ :: _ => false end)
     && negb (max_frames_reached max_frames 0)
  then None else Some [].
Proof.
  unfold extract_frames_from_video.
  destruct (m_cap_opened (decode p)); [|reflexivity].
  destruct (m_cap_frames (decode p)) as [|f fs]; cbn;
    destruct (max_frames_reached max_frames 0); reflexivity.
Qed.

(** ** [collect_files_from_folder] *)

Lemma collect_files_dir fsys path_str p es :
  fsys p = NDir es ->
  collect_files_from_folder fsys path_str p =
    filter (fun f => is_file fsys f && in_exts (file_ext f) all_ext) es.
Proof. intros Ep; unfold collect_files_from_folder; rewrite Ep; reflexivity. Qed.

Lemma collect_files_dir_In fsys path_str p es f :
  fsys p = NDir es ->
  In f (collect_files_from_folder fsys path_str p) <->
  In f es /\ is_file fsys f = true /\ in_exts (file_ext f) all_ext = true.
Proof.
  intros Ep; rewrite (collect_files_dir fsys path_str p es Ep), filter_In, andb_true_iff.
  reflexivity.
Qed.


(** ** Batches and memory *)

Lemma batch_slices_length_le infos bs b :
  In b (batch_slices infos bs) -> Z.of_nat (List.length b) <= Z.max 0 bs.
Proof.
  unfold batch_slices; cbv zeta; intros Hb.
  apply in_map_iff in Hb as (k & <- & _).
  rewrite length_firstn; lia.
Qed.

(** X10: for [bs >= 1] the batch loop cuts the readable sources into
    [ceil(n / bs)] consecutive, non-empty groups of at most [bs] sources
    that together are the sources in their order. *)
Theorem batch_slices_partition infos bs :
  1 <= bs ->
  List.concat (batch_slices infos bs) = infos /\
  (forall b, In b (batch_slices infos bs) -> b <> [] /\ Z.of_nat (List.length b) <= bs) /\
  Z.of_nat (List.length (batch_slices infos bs)) =
  (Z.of_nat (List.length infos) + bs - 1) / bs.
Proof.
  intros Hbs; split; [apply batch_slices_concat, Hbs|split].
  - intros b Hb; split; [apply (batch_slices_nonempty infos bs Hbs), Hb|].
    pose proof (batch_slices_length_le infos bs b Hb); lia.
  - unfold batch_slices, zrange; cbv zeta; rewrite length_map, length_map, length_seq.
    rewrite Z2Nat.id; [reflexivity|apply Z.div_pos; lia].
Qed.

Lemma batch_slices_partition_witness :
  List.concat (batch_slices [demo_a; demo_b; demo_a] 2) = [demo_a; demo_b; demo_a] /\
  (forall b, In b (batch_slices [demo_a; demo_b; demo_a] 2) ->
             b <> [] /\ Z.of_nat (List.length b) <= 2) /\
  Z.of_nat (List.length (batch_slices [demo_a; demo_b; demo_a] 2)) =
  (Z.of_nat (List.length [demo_a; demo_b; demo_a]) + 2 - 1) / 2.
Proof. apply batch_slices_partition; lia. Defined.

Lemma plan_limit_bound srcs first rest L :
  probe_videos srcs = first :: rest ->
  max_concurrent_videos (s_width first) (s_height first) = Some L ->
  3 * (s_width first * s_height first * 3) <= MAX_MEMORY_BYTES ->
  forall n, 0 <= n <= L ->
  calculate_frame_memory (s_width first) (s_height first) n <= MAX_MEMORY_BYTES.
Proof.
  intros _ HL Hle n Hn; unfold calculate_frame_memory; cbv zeta.
  remember (s_width first * s_height first * 3) as fs eqn:Efs.
  destruct (Z_lt_le_dec 0 fs) as [Hpos|Hnp].
  - rewrite Efs in Hpos; pose proof (max_concurrent_videos_eq _ _ Hpos) as HL'.
    rewrite <- Efs in HL', Hpos; rewrite HL in HL'; apply some_inj in HL'.
    pose proof (limit_bounds fs Hpos) as Hb; rewrite <- HL' in Hb.
    destruct Hb as [(_ & Hb & _)|(Hgt & _)]; [nia|lia].
  - destruct (Z.eq_dec fs 0) as [E0|Hneg].
    + unfold max_concurrent_videos in HL; cbv zeta in HL.
      rewrite <- Efs, E0 in HL; discriminate.
    + unfold MAX_MEMORY_BYTES; nia.
Qed.

(** X11: whenever three frames of the output size fit in
    [MAX_MEMORY_BYTES], the pass
    that [create_lighten_blend_video] chooses stays within the budget as [calculate_frame_memory] counts it: the
    streaming pass holds all readable sources at once only when
    [calculate_frame_memory w h n <= MAX_MEMORY_BYTES], and each batch of
    the batched pass satisfies the same bound. *)
Theorem plan_within_memory srcs :
  (forall infos w h fps mf,
     plan_video srcs = DRun (PStreaming infos w h fps mf) ->
     3 * (w * h * 3) <= MAX_MEMORY_BYTES ->
     calculate_frame_memory w h (Z.of_nat (List.length infos)) <= MAX_MEMORY_BYTES) /\
  (forall infos w h fps mf bs b,
     plan_video srcs = DRun (PBatched infos w h fps mf bs) ->
     3 * (w * h * 3) <= MAX_MEMORY_BYTES ->
     In b (batch_slices infos bs) ->
     calculate_frame_memory w h (Z.of_nat (List.length b)) <= MAX_MEMORY_BYTES).
Proof.
  split.
  - intros infos w h fps mf Hplan Hle.
    apply plan_video_run in Hplan as (first & rest & L & Hp & HL & Hpl).
    destruct (Z.of_nat (List.length (first :: rest)) >? L) eqn:Hgt; [discriminate|].
    inversion Hpl; subst; clear Hpl.
    apply (plan_limit_bound srcs first rest L Hp HL Hle).
    rewrite Z.gtb_ltb in Hgt; apply Z.ltb_ge in Hgt; lia.
  - intros infos w h fps mf bs b Hplan Hle Hb.
    apply plan_video_run in Hplan as (first & rest & L & Hp & HL & Hpl).
    destruct (Z.of_nat (List.length (first :: rest)) >? L) eqn:Hgt; [|discriminate].
    inversion Hpl; subst; clear Hpl.
    pose proof (max_concurrent_videos_pos _ _ _ HL).
    pose proof (batch_slices_length_le _ _ _ Hb).
    apply (plan_limit_bound srcs first rest L Hp HL Hle); lia.
Qed.

Lemma plan_within_memory_witness :
  plan_video [demo_a; demo_b] =
    DRun (PStreaming [demo_a; demo_b] 1 1 (Qmake 30 1) 3) /\
  3 * (1 * 1 * 3) <= MAX_MEMORY_BYTES /\
  calculate_frame_memory 1 1 (Z.of_nat (List.length [demo_a; demo_b])) <= MAX_MEMORY_BYTES.
Proof.
  assert (P : plan_video [demo_a; demo_b] =
              DRun (PStreaming [demo_a; demo_b] 1 1 (Qmake 30 1) 3)) by (vm_compute; reflexivity).
  assert (M : 3 * (1 * 1 * 3) <= MAX_MEMORY_BYTES) by (unfold MAX_MEMORY_BYTES; lia).
  split; [exact P|split; [exact M|]].
  exact (proj1 (plan_within_memory [demo_a; demo_b]) _ _ _ _ _ P M).
Defined.

Lemma fold_zmax_bounds (rest : list source) m :
  m <= fold_left (fun m x => Z.max m (s_frame_count x)) rest m /\
  (forall s, In s rest -> s_frame_count s <= fold_left (fun m x => Z.max m (s_frame_count x)) rest m) /\
  (fold_left (fun m x => Z.max m (s_frame_count x)) rest m = m \/
   exists s, In s rest /\ fold_left (fun m x => Z.max m (s_frame_count x)) rest m = s_frame_count s).
Proof.
  revert m; induction rest as [|x rest IH]; intros m; cbn [fold_left].
  - split; [lia|split; [intros s []|left; reflexivity]].
  - destruct (IH (Z.max m (s_frame_count x))) as (H1 & H2 & H3).
    split; [lia|split].
    + intros s [<-|Hs]; [lia|auto].
    + destruct H3 as [E|(s & Hs & E)].
      * rewrite E; destruct (Z.max_spec m (s_frame_count x)) as [[_ E']|[_ E']];
          rewrite E'; [right; exists x; split; [left|]; reflexivity|left; reflexivity].
      * right; exists s; split; [right; exact Hs|exact E].
Qed.

(** X12: for a non-empty list of sources [max_frame_count] is the frame
    count of one of them and no source has more frames, so every
    source's frames fall within the [max_frames] indices of the output. *)
Theorem max_frame_count_is_max infos :
  infos <> [] ->
  (forall s, In s infos -> s_frame_count s <= max_frame_count infos) /\
  exists s, In s infos /\ max_frame_count infos = s_frame_count s.
Proof.
  destruct infos as [|i rest]; [contradiction|intros _]; unfold max_frame_count.
  destruct (fold_zmax_bounds rest (s_frame_count i)) as (H1 & H2 & H3); split.
  - intros s [<-|Hs]; [exact H1|auto].
  - destruct H3 as [E|(s & Hs & E)].
    + exists i; split; [left; reflexivity|exact E].
    + exists s; split; [right; exact Hs|exact E].
Qed.

Lemma max_frame_count_is_max_witness :
  [demo_a; demo_b] <> [] /\
  (forall s, In s [demo_a; demo_b] -> s_frame_count s <= max_frame_count [demo_a; demo_b]) /\
  exists s, In s [demo_a; demo_b] /\ max_frame_count [demo_a; demo_b] = s_frame_count s.
Proof.
  assert (H : [demo_a; demo_b] <> []) by discriminate.
  split; [exact H|exact (max_frame_count_is_max [demo_a; demo_b] H)].
Defined.

(** ** The file list of [main.App] *)

Lemma existsb_eqb_In p l : existsb (String.eqb p) l = true <-> In p l.
Proof.
  rewrite existsb_exists; split.
  - intros (x & Hx & E); apply String.eqb_eq in E; subst; exact Hx.
  - intros H; exists p; split; [exact H|apply String.eqb_refl].
Qed.

Lemma fold_add_if_new_gen fp0 l : forall a0,
  NoDup (fp0 ++ a0) ->
  exists added,
    fold_left add_if_new l (fp0 ++ a0, Z.of_nat (List.length a0)) =
      (fp0 ++ a0 ++ added, Z.of_nat (List.length (a0 ++ added))) /\
    NoDup (fp0 ++ a0 ++ added) /\
    (forall x, In x added -> In x l) /\
    (forall x, In x l -> In x (fp0 ++ a0 ++ added)).
Proof.
  induction l as [|p l IH]; intros a0 Hnd.
  - exists []; rewrite !app_nil_r; split; [reflexivity|split; [exact Hnd|split; intros x []]].
  - cbn [fold_left add_if_new].
    destruct (existsb (String.eqb p) (fp0 ++ a0)) eqn:E.
    + apply existsb_eqb_In in E.
      destruct (IH a0 Hnd) as (added & Hf & Hnd' & Hsub & Hall).
      exists added; split; [exact Hf|split; [exact Hnd'|split]].
      * intros x Hx; right; auto.
      * intros x [<-|Hx]; [|auto].
        rewrite app_assoc; apply in_or_app; left; exact E.
    + assert (Hnin : ~ In p (fp0 ++ a0)) by (rewrite <- existsb_eqb_In, E; discriminate).
      assert (Hnd1 : NoDup (fp0 ++ (a0 ++ [p]))).
      { rewrite app_assoc; apply (Permutation_NoDup (Permutation_cons_append _ _)).
        constructor; assumption. }
      replace ((fp0 ++ a0) ++ [p], Z.of_nat (List.length a0) + 1)
        with (fp0 ++ (a0 ++ [p]), Z.of_nat (List.length (a0 ++ [p])))
        by (rewrite app_assoc, length_app; cbn; f_equal; lia).
      destruct (IH (a0 ++ [p]) Hnd1) as (added & Hf & Hnd' & Hsub & Hall).
      exists (p :: added).
      replace (a0 ++ p :: added) with ((a0 ++ [p]) ++ added)
        by (rewrite <- app_assoc; reflexivity).
      split; [exact Hf|split; [exact Hnd'|split]].
      * intros x [<-|Hx]; [left; reflexivity|right; auto].
      * intros x [<-|Hx]; [|auto].
        apply in_or_app; right; apply in_or_app; left; apply in_or_app; right; left;
          reflexivity.
Qed.

(** The chosen paths not in [A], in order. *)
Lemma filter_new_app A c l :
  filter (fun x => negb (existsb (String.eqb x) (A ++ [c]))) l =
  filter (fun x => negb (String.eqb x c))
    (filter (fun x => negb (existsb (String.eqb x) A)) l).
Proof.
  induction l as [|x l IH]; [reflexivity|].
  cbn [filter]; rewrite existsb_app; cbn [existsb]; rewrite orb_false_r.
  destruct (existsb (String.eqb x) A); cbn [negb orb filter]; [exact IH|].
  destruct (String.eqb x c); cbn [negb]; rewrite IH; reflexivity.
Qed.

Lemma nodup_snoc (M : list string) c :
  nodup string_dec (M ++ [c]) =
  nodup string_dec (filter (fun x => negb (String.eqb x c)) M) ++ [c].
Proof.
  induction M as [|x M IH]; [reflexivity|].
  cbn [app nodup filter].
  destruct (String.eqb x c) eqn:Exc.
  - apply String.eqb_eq in Exc; subst x; cbn [negb].
    destruct (in_dec string_dec c (M ++ [c])) as [_|Hn];
      [exact IH|exfalso; apply Hn, in_or_app; right; left; reflexivity].
  - cbn [negb]; cbn [nodup].
    assert (Hx : In x (M ++ [c]) <-> In x (filter (fun x => negb (String.eqb x c)) M)).
    { rewrite in_app_iff, filter_In; cbn; split.
      - intros [H|[E|[]]]; [split; [exact H|rewrite Exc; reflexivity]|].
        subst c; rewrite String.eqb_refl in Exc; discriminate.
      - intros [H _]; left; exact H. }
    destruct (in_dec string_dec x (M ++ [c])) as [H1|H1];
    destruct (in_dec string_dec x (filter (fun x => negb (String.eqb x c)) M)) as [H2|H2];
      try tauto; rewrite IH; reflexivity.
Qed.

Lemma filter_rev_comm {A} (f : A -> bool) l : filter f (rev l) = rev (filter f l).
Proof.
  induction l as [|x l IH]; [reflexivity|].
  cbn [rev filter]; rewrite filter_app, IH; cbn [filter].
  destruct (f x); [reflexivity|rewrite app_nil_r; reflexivity].
Qed.

Lemma first_occ_cons c L :
  rev (nodup string_dec (rev (c :: L))) =
  c :: rev (nodup string_dec (rev (filter (fun x => negb (String.eqb x c)) L))).
Proof.
  cbn [rev]; rewrite nodup_snoc, rev_app_distr, filter_rev_comm; reflexivity.
Qed.

Lemma fold_add_if_new_exact l : forall A n,
  fold_left add_if_new l (A, n) =
  (A ++ rev (nodup string_dec (rev (filter (fun c => negb (existsb (String.eqb c) A)) l))),
   n + Z.of_nat (List.length
         (rev (nodup string_dec (rev (filter (fun c => negb (existsb (String.eqb c) A)) l)))))).
Proof.
  induction l as [|c l IH]; intros A n.
  - cbn; rewrite app_nil_r; f_equal; lia.
  - cbn [fold_left add_if_new filter].
    destruct (existsb (String.eqb c) A) eqn:E; cbn [negb]; [apply IH|].
    rewrite IH, first_occ_cons, filter_new_app, <- app_assoc; cbn [app List.length].
    f_equal; lia.
Qed.

(** X13: [add_files_dialog] on a list without repetitions appends to it,
    in the order chosen, the chosen paths not already listed, each once
    at its first occurrence ([rev (nodup (rev l))] keeps the first
    occurrence of each path of [l]): the old list is a prefix of the new
    one, [added_count] is the number of paths appended, no path is listed
    twice, every appended path was chosen and every chosen path is listed
    afterwards. *)
Theorem add_files_dialog_spec file_paths chosen :
  NoDup file_paths ->
  exists added,
    add_files_dialog file_paths chosen =
      (file_paths ++ added, Z.of_nat (List.length added)) /\
    added = rev (nodup string_dec
                  (rev (filter (fun c => negb (existsb (String.eqb c) file_paths)) chosen))) /\
    NoDup (file_paths ++ added) /\
    (forall x, In x added -> In x chosen) /\
    (forall x, In x chosen -> In x (file_paths ++ added)).
Proof.
  intros Hnd; unfold add_files_dialog.
  destruct (fold_add_if_new_gen file_paths chosen [] ltac:(rewrite app_nil_r; exact Hnd))
    as (added & Hf & Hnd' & Hsub & Hall).
  rewrite app_nil_r in Hf; exists added; cbn in Hf, Hnd', Hall |- *.
  split; [exact Hf|split; [|auto]].
  rewrite fold_add_if_new_exact in Hf; apply (f_equal fst) in Hf; cbn [fst] in Hf.
  apply app_inv_head in Hf; symmetry; exact Hf.
Qed.

Lemma add_files_dialog_spec_witness :
  NoDup ["a.png"; "b.mp4"]%string /\
  exists added,
    add_files_dialog ["a.png"; "b.mp4"]%string ["c.mp4"; "b.mp4"; "a2.png"; "c.mp4"]%string =
      (["a.png"; "b.mp4"]%string ++ added, Z.of_nat (List.length added)) /\
    added = rev (nodup string_dec
                  (rev (filter (fun c => negb (existsb (String.eqb c) ["a.png"; "b.mp4"]%string))
                          ["c.mp4"; "b.mp4"; "a2.png"; "c.mp4"]%string))) /\
    NoDup (["a.png"; "b.mp4"]%string ++ added) /\
    (forall x, In x added -> In x ["c.mp4"; "b.mp4"; "a2.png"; "c.mp4"]%string) /\
    (forall x, In x ["c.mp4"; "b.mp4"; "a2.png"; "c.mp4"]%string ->
       In x (["a.png"; "b.mp4"]%string ++ added)).
Proof.
  assert (H : NoDup ["a.png"; "b.mp4"]%string).
  { constructor; [intros [E|[]]; discriminate|constructor; [intros []|constructor]]. }
  split; [exact H|exact (add_files_dialog_spec _ _ H)].
Defined.

Lemma on_drop_eq fsys path_str file_paths paths :
  on_drop fsys path_str file_paths paths =
  add_files_dialog file_paths (flat_map (drop_found fsys path_str) paths).
Proof.
  unfold on_drop, add_files_dialog.
  generalize (file_paths, 0); induction paths as [|raw paths IH]; intros st; [reflexivity|].
  cbn [fold_left flat_map]; rewrite fold_left_app, <- IH; f_equal.
  unfold drop_found; cbv zeta.
  destruct (fsys (strip_braces raw)); [reflexivity| |reflexivity].
  destruct (in_exts (file_ext (strip_braces raw)) all_ext); reflexivity.
Qed.

Lemma drop_found_In fsys path_str raw f :
  In f (drop_found fsys path_str raw) <->
  is_file fsys f = true /\ in_exts (file_ext f) all_ext = true /\
  (f = strip_braces raw \/ exists es, fsys (strip_braces raw) = NDir es /\ In f es).
Proof.
  unfold drop_found; cbv zeta.
  destruct (fsys (strip_braces raw)) as [es| |] eqn:Ep.
  - rewrite (collect_files_dir_In fsys path_str _ es f Ep); split.
    + intros (Hin & H1 & H2); split; [exact H1|split; [exact H2|right; exists es; auto]].
    + intros (H1 & H2 & [->|(es' & E & Hin)]).
      * unfold is_file in H1; rewrite Ep in H1; discriminate.
      * injection E as <-; auto.
  - destruct (in_exts (file_ext (strip_braces raw)) all_ext) eqn:Ee; split.
    + intros [<-|[]]; unfold is_file; rewrite Ep; auto.
    + intros (_ & _ & [->|(es & E & _)]); [left; reflexivity|discriminate].
    + intros [].
    + intros (_ & H2 & [->|(es & E & _)]); [congruence|discriminate].
  - split; [intros []|].
    intros (H1 & _ & [->|(es & E & _)]); [|discriminate].
    unfold is_file in H1; rewrite Ep in H1; discriminate.
Qed.

(** X14: dropping paths on the window adds exactly what
    [add_files_dialog] would add for the files found behind the dropped
    paths (their braces stripped), in drop order: the path itself if it
    is a file with a supported extension, what
    [collect_files_from_folder] returns for a folder, nothing for
    anything else. *)
Theorem on_drop_is_dialog fsys path_str file_paths paths :
  on_drop fsys path_str file_paths paths =
  add_files_dialog file_paths
    (flat_map (fun raw =>
                 let path := strip_braces raw in
                 match fsys path with
                 | NFile => if in_exts (file_ext path) all_ext then [path] else []
                 | NDir _ => collect_files_from_folder fsys path_str path
                 | NAbsent => []
                 end) paths).
Proof. exact (on_drop_eq fsys path_str file_paths paths). Qed.

(** X15: on a list without repetitions, [on_drop] only appends, never
    lists a path twice, counts what it appends, and appends only existing
    files with a supported extension, each a dropped path (braces
    stripped) or an entry of a dropped folder's listing; afterwards every
    dropped file with a supported extension and every file with a
    supported extension in a dropped folder's listing is listed. *)
Theorem on_drop_spec fsys path_str file_paths paths :
  NoDup file_paths ->
  exists added,
    on_drop fsys path_str file_paths paths =
      (file_paths ++ added, Z.of_nat (List.length added)) /\
    NoDup (file_paths ++ added) /\
    (forall f, In f added ->
       is_file fsys f = true /\ in_exts (file_ext f) all_ext = true /\
       exists raw, In raw paths /\
         (f = strip_braces raw \/ exists es, fsys (strip_braces raw) = NDir es /\ In f es)) /\
    (forall raw, In raw paths ->
       (is_file fsys (strip_braces raw) = true ->
        in_exts (file_ext (strip_braces raw)) all_ext = true ->
        In (strip_braces raw) (file_paths ++ added)) /\
       (forall es f, fsys (strip_braces raw) = NDir es -> In f es ->
        is_file fsys f = true -> in_exts (file_ext f) all_ext = true ->
        In f (file_paths ++ added))).
Proof.
  intros Hnd.
  destruct (fold_add_if_new_gen file_paths (flat_map (drop_found fsys path_str) paths)
              [] ltac:(rewrite app_nil_r; exact Hnd))
    as (added & Hf & Hnd' & Hsub & Hall).
  rewrite app_nil_r in Hf; cbn in Hf, Hnd', Hall.
  exists added; rewrite on_drop_eq; unfold add_files_dialog.
  split; [exact Hf|split; [exact Hnd'|split]].
  - intros f Hf'; apply Hsub, in_flat_map in Hf' as (raw & Hraw & Hin).
    apply drop_found_In in Hin as (H1 & H2 & H3).
    split; [exact H1|split; [exact H2|exists raw; auto]].
  - intros raw Hraw; split.
    + intros H1 H2; apply Hall, in_flat_map; exists raw; split; [exact Hraw|].
      apply drop_found_In; auto.
    + intros es f Ep Hin H1 H2; apply Hall, in_flat_map; exists raw; split; [exact Hraw|].
      apply drop_found_In; split; [exact H1|split; [exact H2|right; exists es; auto]].
Qed.

Lemma on_drop_spec_witness :
  NoDup ["red.png"]%string /\
  exists added,
    on_drop demo_fsys demo_path_str ["red.png"]%string ["{shots}"; "blue.png"; "nothing"]%string =
      (["red.png"]%string ++ added, Z.of_nat (List.length added)) /\
    NoDup (["red.png"]%string ++ added) /\
    (forall f, In f added ->
       is_file demo_fsys f = true /\ in_exts (file_ext f) all_ext = true /\
       exists raw, In raw ["{shots}"; "blue.png"; "nothing"]%string /\
         (f = strip_braces raw \/
          exists es, demo_fsys (strip_braces raw) = NDir es /\ In f es)) /\
    (forall raw, In raw ["{shots}"; "blue.png"; "nothing"]%string ->
       (is_file demo_fsys (strip_braces raw) = true ->
        in_exts (file_ext (strip_braces raw)) all_ext = true ->
        In (strip_braces raw) (["red.png"]%string ++ added)) /\
       (forall es f, demo_fsys (strip_braces raw) = NDir es -> In f es ->
        is_file demo_fsys f = true -> in_exts (file_ext f) all_ext = true ->
        In f (["red.png"]%string ++ added))).
Proof.
  assert (H : NoDup ["red.png"]%string) by (constructor; [intros []|constructor]).
  split; [exact H|exact (on_drop_spec _ _ _ _ H)].
Defined.

(** X16: [remove_at] with an index in range removes the entry at that
    index: the list is one shorter, entries before it keep their
    positions, the ones after it move up by one, and (the list having no
    repetitions) the removed path is gone while every other path stays.
    An index out of range leaves the list unchanged. *)
Theorem remove_at_spec file_paths index :
  (0 <= index < Z.of_nat (List.length file_paths) ->
   List.length (remove_at file_paths index) = pred (List.length file_paths) /\
   (forall k, nth_error (remove_at file_paths index) k =
              if (k <? Z.to_nat index)%nat then nth_error file_paths k
              else nth_error file_paths (S k)) /\
   (NoDup file_paths ->
    exists x, nth_error file_paths (Z.to_nat index) = Some x /\
      ~ In x (remove_at file_paths index) /\
      forall y, In y file_paths -> y <> x -> In y (remove_at file_paths index))) /\
  (~ (0 <= index < Z.of_nat (List.length file_paths)) -> remove_at file_paths index = file_paths).
Proof.
  unfold remove_at; split; intros Hr.
  - assert (Hb : (0 <=? index) && (index <? Z.of_nat (List.length file_paths)) = true)
      by (apply andb_true_intro; split; [apply Z.leb_le|apply Z.ltb_lt]; lia).
    rewrite Hb; set (n := Z.to_nat index).
    assert (Hn : (n < List.length file_paths)%nat) by (subst n; lia).
    split; [|split].
    + rewrite length_app, length_firstn, length_skipn; lia.
    + intros k; rewrite nth_error_app, length_firstn, Nat.min_l by lia.
      rewrite nth_error_firstn, nth_error_skipn.
      destruct (Nat.ltb_spec k n); [reflexivity|f_equal; lia].
    + intros Hnd.
      destruct (nth_error file_paths n) as [x|] eqn:Ex;
        [|apply nth_error_None in Ex; lia].
      exists x; split; [reflexivity|].
      pose proof (firstn_skipn_middle n file_paths Ex) as Hsplit.
      split.
      * rewrite <- Hsplit in Hnd; apply NoDup_remove_2 in Hnd; exact Hnd.
      * intros y Hy Hyx; rewrite <- Hsplit in Hy.
        apply in_app_or in Hy as [Hy|[E|Hy]]; apply in_or_app; auto.
        congruence.
  - destruct ((0 <=? index) && (index <? Z.of_nat (List.length file_paths))) eqn:Hb;
      [|reflexivity].
    apply andb_prop in Hb as [H1 H2]; apply Z.leb_le in H1; apply Z.ltb_lt in H2; lia.
Qed.

Lemma remove_at_spec_witness :
  (0 <= 1 < Z.of_nat (List.length ["a.png"; "b.mp4"; "c.mp4"]%string)) /\
  List.length (remove_at ["a.png"; "b.mp4"; "c.mp4"]%string 1) =
    pred (List.length ["a.png"; "b.mp4"; "c.mp4"]%string).
Proof.
  assert (H : 0 <= 1 < Z.of_nat (List.length ["a.png"; "b.mp4"; "c.mp4"]%string))
    by (cbn; lia).
  split; [exact H|exact (proj1 (proj1 (remove_at_spec _ _) H))].
Defined.

(** X17: the image and video buttons are enabled exactly when
    [create_image] and [create_video] go past their warning; a video run
    gets at least two files, all from the list, in list order, and all
    with a video extension, while an image run gets the whole list. *)
Theorem buttons_match_guards file_paths output_path :
  (b_image (update_button_state file_paths) = true <->
   create_image file_paths output_path <> UWarn) /\
  (b_video (update_button_state file_paths) = true <->
   create_video file_paths output_path <> UWarn) /\
  (forall files o, create_video file_paths output_path = URunVideo files o ->
     o = output_path /\ 2 <= Z.of_nat (List.length files) /\
     files = filter is_video_file file_paths /\
     forall f, In f files -> In f file_paths /\ is_video_file f = true) /\
  (forall files o, create_image file_paths output_path = URunImage files o ->
     o = output_path /\ files = file_paths /\ 2 <= Z.of_nat (List.length files)).
Proof.
  unfold update_button_state, create_image, create_video; cbn [b_image b_video]; cbv zeta.
  set (n := Z.of_nat (List.length file_paths)).
  set (vs := filter is_video_file file_paths).
  split; [|split; [|split]].
  - destruct (Z.ltb_spec n 2); destruct (Z.leb_spec 2 n); try lia;
      [split; [discriminate|intros Hw; contradiction Hw; reflexivity]|].
    split; [intros _|reflexivity].
    destruct (String.eqb output_path EmptyString); discriminate.
  - destruct (Z.ltb_spec (Z.of_nat (List.length vs)) 2);
      destruct (Z.leb_spec 2 (Z.of_nat (List.length vs))); try lia;
      [split; [discriminate|intros Hw; contradiction Hw; reflexivity]|].
    split; [intros _|reflexivity].
    destruct (String.eqb output_path EmptyString); discriminate.
  - intros files o.
    destruct (Z.ltb_spec (Z.of_nat (List.length vs)) 2); [discriminate|].
    destruct (String.eqb output_path EmptyString); [discriminate|].
    intros E; inversion E; subst files o.
    split; [reflexivity|split; [lia|split; [reflexivity|]]].
    intros f Hf; apply filter_In in Hf; exact Hf.
  - intros files o.
    destruct (Z.ltb_spec n 2); [discriminate|].
    destruct (String.eqb output_path EmptyString); [discriminate|].
    intros E; inversion E; subst files o; split; [reflexivity|split; [reflexivity|lia]].
Qed.

(** X18: [download_and_setup] returns [True] at once, without
    downloading, when FFmpeg is already usable; it returns [True] only
    when FFmpeg is usable at entry or after the extraction; an exception
    escapes only from [os.makedirs] or from removing [ffmpeg.zip]; and
    whenever a download was started and the function returns, it leaves
    no [ffmpeg.zip] behind. *)
Theorem download_and_setup_spec wd :
  (w_installed_before wd = true ->
   download_and_setup wd = mk_outcome (Some true) false (w_zip_before wd)) /\
  (so_result (download_and_setup wd) = Some true ->
   w_installed_before wd = true \/ w_installed_after wd = true) /\
  (so_result (download_and_setup wd) = None ->
   w_installed_before wd = false /\
   (w_makedirs_ok wd = false \/
    (so_requested (download_and_setup wd) = true /\ w_remove_ok wd = false))) /\
  (so_requested (download_and_setup wd) = true ->
   so_result (download_and_setup wd) <> None ->
   so_zip_left (download_and_setup wd) = false).
Proof.
  destruct wd as [ib mk zb g wr ex rm ia]; unfold download_and_setup; cbn.
  destruct ib, mk, zb, g, wr, ex, rm, ia; cbn;
    repeat split; intros; try discriminate; try congruence; auto.
Qed.

Lemma sample_from_one idx fs : sample_from 1 idx fs = fs.
Proof.
  revert idx; induction fs as [|f fs IH]; intros idx; [reflexivity|].
  cbn [sample_from]; rewrite Z.mod_1_r, IH; reflexivity.
Qed.

(** X19: with [step = 1], [extract_frames_from_video] reads the same
    frames as the other readers of a video: unlimited, it returns the
    frames the video loop of [create_lighten_blend_image] merges; with
    [max_frames = 1], it returns the frame [get_frame_from_video] gives
    for index 0, or nothing where that gives [None]. *)
Theorem extract_step_one decode p :
  (file_branch p = BVideo ->
   extract_frames_from_video decode p 1 None = Some (file_frames decode p)) /\
  extract_frames_from_video decode p 1 (Some 1) =
  Some (match get_frame_from_video decode p with Some f => [f] | None => [] end).
Proof.
  split.
  - intros Hb; rewrite extract_frames_eq by discriminate.
    unfold file_frames; rewrite Hb, sample_from_one; reflexivity.
  - rewrite extract_frames_eq by discriminate.
    unfold get_frame_from_video; rewrite sample_from_one; cbn.
    destruct (m_cap_opened (decode p)); [|reflexivity].
    destruct (m_cap_frames (decode p)); reflexivity.
Qed.

Lemma extract_step_one_witness :
  file_branch "clip.xyz" = BVideo /\
  extract_frames_from_video demo_decode "clip.xyz" 1 None = Some (file_frames demo_decode "clip.xyz").
Proof.
  assert (H : file_branch "clip.xyz" = BVideo) by (vm_compute; reflexivity).
  split; [exact H|exact (proj1 (extract_step_one demo_decode "clip.xyz") H)].
Defined.
